(** * Merkle proofs over contract clauses: a verification of [contract_verifier.py]

    The development embeds the core of [src/contract_verifier.py] --
    [hash_data], [build_merkle_tree], [get_merkle_root], [get_merkle_proof]
    and [verify_merkle_proof] -- as executable Rocq functions and proves the
    properties the specification states about them.

    Modelling conventions.
    - A Python [str] is a Rocq [string], read as the UTF-8 encoding of the
      text.  Encoding is injective and commutes with [+], so [==] and [+] on
      [str] are [String.eqb] and [++] on the encodings; texts that cannot be
      encoded (lone surrogates) make [hash_data] raise and are outside the
      model.
    - A tree is a [list (list string)], level 0 first; [tree[-1]] is
      [last tree []].
    - A proof step is a pair [(sibling, side)] whose side is the string
      ["left"] or ["right"], as in the source.
    - The [while] loop of [build_merkle_tree] is run with fuel; running out
      of fuel is [None], and the termination theorem shows it never happens
      with fuel [length leaf_hashes].
    - [extract_clauses] works on the encoding too: the whitespace of
      [str.strip] is recognised by the bytes of its characters.
    - A procedure that prints returns the texts it printed, in order, with
      its result; an [IndexError] is the result [None]. *)

From Stdlib Require Import List String Ascii ZArith Arith Bool Lia DecimalString.
Import ListNotations.
Local Open Scope string_scope.
Local Open Scope list_scope.

(* ================================================================== *)
(** * SHA-256 (FIPS 180-4), the digest behind [hashlib.sha256] *)
(* ================================================================== *)

Module SHA256.
Local Open Scope Z_scope.

(** 32-bit words are integers in [0, 2^32); every operation that can leave
    the range wraps explicitly. *)
Definition wrap32 (x : Z) : Z := x mod 2 ^ 32.
Definition add32 (x y : Z) : Z := wrap32 (x + y).
Definition not32 (x : Z) : Z := Z.lxor x (2 ^ 32 - 1).
Definition rotr (n x : Z) : Z :=
  Z.lor (Z.shiftr x n) (wrap32 (Z.shiftl x (32 - n))).
Definition shr (n x : Z) : Z := Z.shiftr x n.

Definition Ch (x y z : Z) : Z := Z.lxor (Z.land x y) (Z.land (not32 x) z).
Definition Maj (x y z : Z) : Z :=
  Z.lxor (Z.lxor (Z.land x y) (Z.land x z)) (Z.land y z).
Definition Sum0 (x : Z) : Z := Z.lxor (Z.lxor (rotr 2 x) (rotr 13 x)) (rotr 22 x).
Definition Sum1 (x : Z) : Z := Z.lxor (Z.lxor (rotr 6 x) (rotr 11 x)) (rotr 25 x).
Definition sig0 (x : Z) : Z := Z.lxor (Z.lxor (rotr 7 x) (rotr 18 x)) (shr 3 x).
Definition sig1 (x : Z) : Z := Z.lxor (Z.lxor (rotr 17 x) (rotr 19 x)) (shr 10 x).

(** The round constants are the first 32 bits of the fractional parts of the
    cube roots of the first 64 primes, the initial state those of the square
    roots of the first 8. *)
Definition primes : list Z :=
  [2; 3; 5; 7; 11; 13; 17; 19; 23; 29; 31; 37; 41; 43; 47; 53;
   59; 61; 67; 71; 73; 79; 83; 89; 97; 101; 103; 107; 109; 113; 127; 131;
   137; 139; 149; 151; 157; 163; 167; 173; 179; 181; 191; 193; 197; 199; 211; 223;
   227; 229; 233; 239; 241; 251; 257; 263; 269; 271; 277; 281; 283; 293; 307; 311].

(** Integer cube root, most significant bit first. *)
Fixpoint cbrt_bits (bits : nat) (n acc : Z) : Z :=
  match bits with
  | O => acc
  | S b =>
      let c := acc + 2 ^ Z.of_nat b in
      if c * c * c <=? n then cbrt_bits b n c else cbrt_bits b n acc
  end.

Definition K : list Z :=
  Eval vm_compute in map (fun p => wrap32 (cbrt_bits 40 (p * 2 ^ 96) 0)) primes.
Definition H0 : list Z :=
  Eval vm_compute in map (fun p => wrap32 (Z.sqrt (p * 2 ^ 64))) (firstn 8 primes).

(** Padding: a 1 bit, zeros up to 56 mod 64 bytes, the bit length on 8 bytes. *)
Fixpoint be_bytes (n : nat) (x : Z) : list Z :=
  match n with
  | O => []
  | S n' => (Z.shiftr x (8 * Z.of_nat n')) mod 256 :: be_bytes n' x
  end.

Definition pad (msg : list Z) : list Z :=
  let len := Z.of_nat (List.length msg) in
  msg ++ [128] ++ repeat 0 (Z.to_nat ((55 - len) mod 64)) ++ be_bytes 8 (8 * len).

Fixpoint words (bs : list Z) : list Z :=
  match bs with
  | b0 :: b1 :: b2 :: b3 :: rest =>
      (b0 * 2 ^ 24 + b1 * 2 ^ 16 + b2 * 2 ^ 8 + b3) :: words rest
  | _ => []
  end.

Fixpoint blocks (n : nat) (ws : list Z) : list (list Z) :=
  match n with
  | O => []
  | S n' => firstn 16 ws :: blocks n' (skipn 16 ws)
  end.

(** Message schedule: [W] holds W_0..W_{t-1} and grows to 64 words. *)
Fixpoint schedule (n : nat) (W : list Z) : list Z :=
  match n with
  | O => W
  | S n' =>
      let t := List.length W in
      let at_ k := nth (t - k) W 0 in
      schedule n'
        (W ++ [add32 (add32 (sig1 (at_ 2%nat)) (at_ 7%nat))
                     (add32 (sig0 (at_ 15%nat)) (at_ 16%nat))])
  end.

Record state := State { a : Z; b : Z; c : Z; d : Z; e : Z; f : Z; g : Z; h : Z }.

Definition round (s : state) (kw : Z * Z) : state :=
  let T1 := add32 (add32 (add32 (h s) (Sum1 (e s))) (Ch (e s) (f s) (g s)))
                  (add32 (fst kw) (snd kw)) in
  let T2 := add32 (Sum0 (a s)) (Maj (a s) (b s) (c s)) in
  State (add32 T1 T2) (a s) (b s) (c s) (add32 (d s) T1) (e s) (f s) (g s).

Definition compress (s : state) (block : list Z) : state :=
  let s' := fold_left round (combine K (schedule 48 block)) s in
  State (add32 (a s) (a s')) (add32 (b s) (b s')) (add32 (c s) (c s'))
        (add32 (d s) (d s')) (add32 (e s) (e s')) (add32 (f s) (f s'))
        (add32 (g s) (g s')) (add32 (h s) (h s')).

Definition init : state :=
  State (nth 0 H0 0) (nth 1 H0 0) (nth 2 H0 0) (nth 3 H0 0)
        (nth 4 H0 0) (nth 5 H0 0) (nth 6 H0 0) (nth 7 H0 0).

(** The digest as eight 32-bit words. *)
Definition digest (msg : list Z) : list Z :=
  let ws := words (pad msg) in
  let s := fold_left compress (blocks (List.length ws / 16) ws) init in
  [a s; b s; c s; d s; e s; f s; g s; h s].

(** [hexdigest()]: lowercase hexadecimal, most significant digit first. *)
Definition hex_digit (x : Z) : ascii :=
  ascii_of_nat (Z.to_nat (if x <? 10 then 48 + x else 87 + x)).

Fixpoint hex (digits : nat) (x : Z) : string :=
  match digits with
  | O => EmptyString
  | S n' => String (hex_digit ((Z.shiftr x (4 * Z.of_nat n')) mod 16)) (hex n' x)
  end.

Definition hexdigest (ws : list Z) : string :=
  fold_right (fun w s => append (hex 8 w) s) EmptyString ws.

(** The bytes of a string. *)
Fixpoint bytes (s : string) : list Z :=
  match s with
  | EmptyString => []
  | String ch s' => Z.of_nat (nat_of_ascii ch) :: bytes s'
  end.

Definition sha256_hex (data : string) : string := hexdigest (digest (bytes data)).

End SHA256.

(* ================================================================== *)
(** * The program *)
(* ================================================================== *)

(** [hash_data] is the only place where the program calls [hashlib].  Nothing
    the tree, the proofs or the verifier do depends on which digest it is, so
    the development is stated over the interface; [sha256_hash] below is the
    instance the program runs. *)
Class HashFn := hash_data : string -> string.

#[export] Instance sha256_hash : HashFn :=
  fun data => SHA256.sha256_hex data.

(** A Merkle proof is a list of [(hash, side)] pairs. *)
Definition MerkleProof := list (string * string).

(** [range(0, n, 2)] *)
Definition range2 (n : nat) : list nat :=
  map (fun k => 2 * k) (seq 0 (Nat.div2 (S n))).

Section Program.
Context {hash : HashFn}.

(** Lines 17-27: one pass of the [for] loop, building [next_level]. *)
Definition next_level (level : list string) : list string :=
  map (fun i =>
         let left_child := nth i level "" in
         let right_child :=
           if (i + 1 <? List.length level)%nat then nth (i + 1) level "" else nth i level "" in
         hash_data (left_child ++ right_child)%string)
      (range2 (List.length level)).

(** Lines 15-29: the [while] loop, with fuel. *)
Fixpoint while_loop (fuel : nat) (tree : list (list string)) : option (list (list string)) :=
  match fuel with
  | O => None
  | S fuel' =>
      if (1 <? List.length (last tree []))%nat then
        while_loop fuel' (tree ++ [next_level (last tree [])])
      else Some tree
  end.

Definition build_merkle_tree_fuel (fuel : nat) (leaf_hashes : list string)
  : option (list (list string)) :=
  match leaf_hashes with
  | [] => Some []
  | _ => while_loop fuel [leaf_hashes]
  end.

(** [build_merkle_tree], run with as much fuel as there are leaves (which
    [build_merkle_tree_total] shows to be enough). *)
Definition build_merkle_tree (leaf_hashes : list string) : list (list string) :=
  match build_merkle_tree_fuel (List.length leaf_hashes) leaf_hashes with
  | Some tree => tree
  | None => []
  end.

(** Lines 92-112: the scan of one level, [None] when the loop ends with
    [found_in_level] still false, otherwise the appended step and the new
    [current_hash_up]. *)
Fixpoint scan_level (level : list string) (current_hash_up : string) (indices : list nat)
  : option ((string * string) * string) :=
  match indices with
  | [] => None
  | i :: rest =>
      let left_node := nth i level "" in
      let right_node :=
        if (i + 1 <? List.length level)%nat then nth (i + 1) level "" else nth i level "" in
      if (current_hash_up =? left_node)%string then
        Some ((right_node, "right"), hash_data (left_node ++ right_node)%string)
      else if (current_hash_up =? right_node)%string then
        Some ((left_node, "left"), hash_data (left_node ++ right_node)%string)
      else scan_level level current_hash_up rest
  end.

(** Lines 89-122: the loop over the levels below the root. *)
Fixpoint proof_loop (tree : list (list string)) (level_indices : list nat)
    (proof_revised : MerkleProof) (current_hash_up : string) : MerkleProof :=
  match level_indices with
  | [] => proof_revised
  | level_index :: rest =>
      let level := nth level_index tree [] in
      match scan_level level current_hash_up (range2 (List.length level)) with
      | Some (step, parent) => proof_loop tree rest (proof_revised ++ [step]) parent
      | None => []
      end
  end.

Definition get_merkle_proof (tree : list (list string)) (target_hash : string)
  : MerkleProof :=
  match tree with
  | [] => []
  | [] :: _ => []
  | _ => proof_loop tree (seq 0 (List.length tree - 1)) [] target_hash
  end.

(** Lines 130-143: the loop of the verifier, [None] on an invalid side. *)
Fixpoint verify_loop (proof : MerkleProof) (computed_hash : string) : option string :=
  match proof with
  | [] => Some computed_hash
  | (sibling_hash, side) :: rest =>
      if (side =? "left")%string then
        verify_loop rest (hash_data (sibling_hash ++ computed_hash)%string)
      else if (side =? "right")%string then
        verify_loop rest (hash_data (computed_hash ++ sibling_hash)%string)
      else None
  end.

Definition verify_merkle_proof (proof : MerkleProof) (target_hash merkle_root : string)
  : bool :=
  match verify_loop proof target_hash with
  | Some computed_hash => (computed_hash =? merkle_root)%string
  | None => false
  end.

End Program.

(** [get_merkle_root]: the sentinel for a tree with no level or an empty top
    level, otherwise [tree[-1][0]]. *)
Definition get_merkle_root (tree : list (list string)) : string :=
  match tree with
  | [] => "EMPTY_CONTRACT"
  | _ => match last tree [] with
         | [] => "EMPTY_CONTRACT"
         | root :: _ => root
         end
  end.

Definition compare_merkle_roots (root1 root2 : string) : bool := (root1 =? root2)%string.

(* ================================================================== *)
(** * Notions of the proofs *)
(* ================================================================== *)

Section Notions.
Context {hash : HashFn}.

(** The scan of a whole level, two nodes at a time. *)
Definition scan (level : list string) (current : string) :=
  scan_level level current (range2 (List.length level)).

(** The trees of the builder: every level but the last has more than one
    node and is followed by its [next_level]; the last level is one node. *)
Inductive chain : list (list string) -> Prop :=
| chain_root root : chain [[root]]
| chain_step level rest :
    1 < List.length level ->
    chain (next_level level :: rest) ->
    chain (level :: next_level level :: rest).

(** The loop over the levels, from level 0 of [tree]. *)
Definition climb (tree : list (list string)) (proof : MerkleProof) (current : string)
  : MerkleProof :=
  proof_loop tree (seq 0 (List.length tree - 1)) proof current.

(** A step of the prover: sibling in the level, side a legal literal. *)
Definition step_of (step : string * string) (level : list string) : Prop :=
  In (fst step) level /\ (snd step = "left" \/ snd step = "right").

End Notions.

(* ================================================================== *)
(** * The contracts of the demonstration (lines 165-215) *)
(* ================================================================== *)

Definition clauses_v1 : list string :=
  ["Clause 1: The buyer agrees to pay in full within 30 days.";
   "Clause 2: The seller provides a 1-year warranty.";
   "Clause 3: All disputes will be settled in California."].

Definition clauses_v2 : list string :=
  ["Clause 1: The buyer agrees to pay in full within 30 days.";
   "Clause 2: The seller provides a 2-year warranty.";
   "Clause 3: All disputes will be settled in California ."].

Definition hashes_v1 : list string := Eval vm_compute in map hash_data clauses_v1.
Definition hashes_v2 : list string := Eval vm_compute in map hash_data clauses_v2.

(** [hashes_v1] with the digest of the third clause once more, the leaves of
    contract 1 with its last clause written twice. *)
Definition hashes_v1_repeated : list string :=
  Eval vm_compute in hashes_v1 ++ [nth 2 hashes_v1 ""].

Definition target_hash_v1 : string := Eval vm_compute in nth 1 hashes_v1 "".

(* ================================================================== *)
(** * The text of a contract: [extract_clauses] *)
(* ================================================================== *)

(** The line feed, ['\n']. *)
Definition newline : ascii := "010"%char.

(** [str.isspace] on the UTF-8 encoding.  The whitespace characters of
    Python are U+0009-000D, U+001C-001F and U+0020 (one byte each), U+0085
    and U+00A0 (C2 85, C2 A0), U+1680 (E1 9A 80), U+2000-200A, U+2028,
    U+2029 and U+202F (E2 80 80-8A, E2 80 A8, E2 80 A9, E2 80 AF), U+205F
    (E2 81 9F) and U+3000 (E3 80 80). *)
Definition space1 (b1 : ascii) : bool :=
  let n1 := nat_of_ascii b1 in
  ((9 <=? n1) && (n1 <=? 13) || (28 <=? n1) && (n1 <=? 32))%nat.

Definition space2 (b1 b2 : ascii) : bool :=
  let n1 := nat_of_ascii b1 in
  let n2 := nat_of_ascii b2 in
  ((n2 =? 133) || (n2 =? 160))%nat && (n1 =? 194)%nat.

Definition space3 (b1 b2 b3 : ascii) : bool :=
  let n1 := nat_of_ascii b1 in
  let n2 := nat_of_ascii b2 in
  let n3 := nat_of_ascii b3 in
  ((n2 =? 154) && ((n3 =? 128) && (n1 =? 225))
   || (n2 =? 128)
      && (((128 <=? n3) && (n3 <=? 138) || (n3 =? 168) || (n3 =? 169) || (n3 =? 175))
          && (n1 =? 226))
   || (n2 =? 129) && ((n3 =? 159) && (n1 =? 226))
   || (n2 =? 128) && ((n3 =? 128) && (n1 =? 227)))%nat.

(** [s.lstrip()]: the text without its leading whitespace characters. *)
Fixpoint lstrip (s : string) : string :=
  match s with
  | String b1 rest1 =>
      if space1 b1 then lstrip rest1 else
      match rest1 with
      | String b2 rest2 =>
          if space2 b1 b2 then lstrip rest2 else
          match rest2 with
          | String b3 rest3 => if space3 b1 b2 b3 then lstrip rest3 else s
          | EmptyString => s
          end
      | EmptyString => s
      end
  | EmptyString => s
  end.

(** A text of whitespace characters only (or empty). *)
Definition blank (s : string) : bool := (lstrip s =? "")%string.

(** [s.rstrip()]: the text up to the point from which it is blank. *)
Fixpoint rstrip (s : string) : string :=
  match s with
  | String b rest => if blank s then EmptyString else String b (rstrip rest)
  | EmptyString => EmptyString
  end.

(** [s.strip()] *)
Definition strip (s : string) : string := rstrip (lstrip s).

(** [s.split("\n")] *)
Fixpoint split_newline (s : string) : list string :=
  match s with
  | EmptyString => [EmptyString]
  | String b rest =>
      if (b =? newline)%char then EmptyString :: split_newline rest
      else match split_newline rest with
           | line :: lines => String b line :: lines
           | [] => [String b EmptyString]
           end
  end.

(** Lines 158-161. *)
Definition extract_clauses (text : string) : list string :=
  filter (fun line => negb (strip line =? "")%string) (split_newline (strip text)).

(** Lines 165-169, the text of contract 1 between its triple quotes. *)
Definition contract_v1 : string :=
  String newline "Clause 1: The buyer agrees to pay in full within 30 days."
  ++ String newline "Clause 2: The seller provides a 1-year warranty."
  ++ String newline "Clause 3: All disputes will be settled in California."
  ++ String newline "".

(* ================================================================== *)
(** * The report: [compare_and_print_clause_hashes] *)
(* ================================================================== *)

(** A procedure that prints: the texts it passed to [print], in order, and
    its result, [None] when it raised [IndexError]. *)
Definition Print (A : Type) : Type := list string * option A.

Definition ret {A : Type} (a : A) : Print A := ([], Some a).

Definition bind {A B : Type} (m : Print A) (k : A -> Print B) : Print B :=
  match m with
  | (out, Some a) => let (out', b) := k a in (out ++ out', b)
  | (out, None) => (out, None)
  end.

Notation "x <- m ;; k" := (bind m (fun x => k))
  (at level 61, m at next level, right associativity).
Notation "m ;; k" := (bind m (fun _ => k))
  (at level 61, right associativity).

(** [print(text)] *)
Definition print (text : string) : Print unit := ([text], Some tt).

(** [l[i]] for [i >= 0] *)
Definition index (l : list string) (i : nat) : Print string := ([], nth_error l i).

(** [for i in indices: body] *)
Fixpoint for_each (indices : list nat) (body : nat -> Print unit) : Print unit :=
  match indices with
  | [] => ret tt
  | i :: rest => body i ;; for_each rest body
  end.

(** [str(n)], the decimal numeral *)
Definition str (n : nat) : string := NilEmpty.string_of_uint (Nat.to_uint n).

(** Lines 40-71. *)
Definition compare_and_print_clause_hashes
    (hashes_v1 hashes_v2 clauses_v1 clauses_v2 : list string) : Print unit :=
  print (String newline "🔎 Clause-Level Comparison:") ;;
  let min_len := Nat.min (List.length hashes_v1) (List.length hashes_v2) in
  let max_len := Nat.max (List.length hashes_v1) (List.length hashes_v2) in
  for_each (seq 0 min_len) (fun i =>
    h1 <- index hashes_v1 i ;;
    h2 <- index hashes_v2 i ;;
    if (h1 =? h2)%string then
      print ("Clause " ++ str (i + 1) ++ ": ✅ Match")%string
    else
      print ("Clause " ++ str (i + 1) ++ ": ❌ Difference")%string ;;
      c1 <- index clauses_v1 i ;;
      print ("   🔹 V1: " ++ c1)%string ;;
      c2 <- index clauses_v2 i ;;
      print ("   🔹 V2: " ++ c2)%string) ;;
  if (min_len <? max_len)%nat then
    print (String newline "Additional Clauses:") ;;
    if (List.length hashes_v2 <? List.length hashes_v1)%nat then
      print "   🔹 V1 has additional clauses:" ;;
      for_each (seq min_len (max_len - min_len)) (fun i =>
        c1 <- index clauses_v1 i ;;
        print ("      Clause " ++ str (i + 1) ++ ": " ++ c1)%string)
    else
      print "   🔹 V2 has additional clauses:" ;;
      for_each (seq min_len (max_len - min_len)) (fun i =>
        c2 <- index clauses_v2 i ;;
        print ("      Clause " ++ str (i + 1) ++ ": " ++ c2)%string)
  else ret tt.

(* ================================================================== *)
(** * Notions of the further proofs *)
(* ================================================================== *)

Section Collision.
Context {hash : HashFn}.

(** A collision of the digest: two different texts with one hash. *)
Definition collision : Prop :=
  exists x y : string, x <> y /\ hash_data x = hash_data y.

End Collision.


(** The text after one leading whitespace character, if there is one. *)
Definition space_prefix (s : string) : option string :=
  match s with
  | String b1 rest1 =>
      if space1 b1 then Some rest1 else
      match rest1 with
      | String b2 rest2 =>
          if space2 b1 b2 then Some rest2 else
          match rest2 with
          | String b3 rest3 => if space3 b1 b2 b3 then Some rest3 else None
          | EmptyString => None
          end
      | EmptyString => None
      end
  | EmptyString => None
  end.

(** A text without line feed. *)
Definition one_line (s : string) : Prop := ~ In newline (list_ascii_of_string s).

(** ["\n".join(lines)] *)
Definition join_lines (lines : list string) : string :=
  String.concat (String newline "") lines.

(** One round of the first loop (lines 49-57). *)
Definition compare_clause (hashes_v1 hashes_v2 clauses_v1 clauses_v2 : list string)
    (i : nat) : Print unit :=
  h1 <- index hashes_v1 i ;;
  h2 <- index hashes_v2 i ;;
  if (h1 =? h2)%string then
    print ("Clause " ++ str (i + 1) ++ ": ✅ Match")%string
  else
    print ("Clause " ++ str (i + 1) ++ ": ❌ Difference")%string ;;
    c1 <- index clauses_v1 i ;;
    print ("   🔹 V1: " ++ c1)%string ;;
    c2 <- index clauses_v2 i ;;
    print ("   🔹 V2: " ++ c2)%string.

(** One round of the loop over the additional clauses (lines 65-66, 70-71). *)
Definition additional_clause (clauses : list string) (i : nat) : Print unit :=
  c <- index clauses i ;;
  print ("      Clause " ++ str (i + 1) ++ ": " ++ c)%string.

(* ================================================================== *)
(** * The digest on published test vectors *)
(* ================================================================== *)

(** FIPS 180-4 examples and the empty message. *)
Example sha256_abc :
  SHA256.sha256_hex "abc"
  = "ba7816bf8f01cfea414140de5dae2223b00361a396177a9cb410ff61f20015ad".
Proof. vm_compute. reflexivity. Qed.

Example sha256_empty :
  SHA256.sha256_hex ""
  = "e3b0c44298fc1c149afbf4c8996fb92427ae41e4649b934ca495991b7852b855".
Proof. vm_compute. reflexivity. Qed.

Example sha256_two_blocks :
  SHA256.sha256_hex "abcdbcdecdefdefgefghfghighijhijkijkljklmklmnlmnomnopnopq"
  = "248d6a61d20638b8e5c026930c3e6039a33ce45964ff2167f6ecedd419db06c1".
Proof. vm_compute. reflexivity. Qed.

(* ================================================================== *)
(** * One level: the pairing shared by the builder and the prover *)
(* ================================================================== *)

(** Lists two elements at a time. *)
Lemma list_ind2 (A : Type) (P : list A -> Prop) :
  P [] -> (forall a, P [a]) -> (forall a b rest, P rest -> P (a :: b :: rest)) ->
  forall l, P l.
Proof.
  intros Hnil Hone Htwo.
  fix IH 1. intros [|a [|b rest]];
    [exact Hnil | exact (Hone a) | exact (Htwo a b rest (IH rest))].
Qed.

Lemma range2_SS n : range2 (S (S n)) = 0 :: map (fun i => S (S i)) (range2 n).
Proof.
  unfold range2. change (Nat.div2 (S (S (S n)))) with (S (Nat.div2 (S n))).
  cbn [seq map]. f_equal.
  rewrite <- seq_shift, !map_map. apply map_ext. intros k. lia.
Qed.

Lemma length_range2 n : List.length (range2 n) = Nat.div2 (S n).
Proof. unfold range2. now rewrite length_map, length_seq. Qed.

Lemma nth_range2 n j : j < Nat.div2 (S n) -> nth j (range2 n) 0 = 2 * j.
Proof.
  intros Hj. unfold range2.
  rewrite (nth_indep _ 0 (2 * 0)) by now rewrite length_map, length_seq.
  rewrite (map_nth (fun k => 2 * k)), seq_nth by assumption. reflexivity.
Qed.

Section Level.
Context {hash : HashFn}.

Lemma next_level_nil : next_level [] = [].
Proof. reflexivity. Qed.

Lemma next_level_one a : next_level [a] = [hash_data (a ++ a)%string].
Proof. reflexivity. Qed.

Lemma next_level_two a b rest :
  next_level (a :: b :: rest) = hash_data (a ++ b)%string :: next_level rest.
Proof.
  unfold next_level. cbn [List.length]. rewrite range2_SS. cbn [map].
  f_equal. rewrite map_map. apply map_ext. intros i.
  change (S (S i) + 1) with (S (S (i + 1))).
  reflexivity.
Qed.

Lemma length_next_level level :
  List.length (next_level level) = Nat.div2 (S (List.length level)).
Proof. unfold next_level. now rewrite length_map, length_range2. Qed.

Lemma next_level_shrinks level :
  1 < List.length level -> List.length (next_level level) < List.length level.
Proof.
  intros H. rewrite length_next_level.
  rewrite Nat.div2_div. apply Nat.Div0.div_lt_upper_bound. lia.
Qed.

Lemma next_level_not_nil level : level <> [] -> next_level level <> [].
Proof.
  intros H Hn. apply (f_equal (@List.length string)) in Hn.
  rewrite length_next_level in Hn. destruct level as [|a [|b rest]]; [easy| |]; discriminate.
Qed.

Lemma scan_level_shift a b rest current indices :
  scan_level (a :: b :: rest) current (map (fun i => S (S i)) indices)
  = scan_level rest current indices.
Proof.
  induction indices as [|i indices IH]; [reflexivity|].
  cbn [map scan_level]. rewrite IH.
  change (S (S i) + 1) with (S (S (i + 1))). reflexivity.
Qed.

Lemma scan_nil current : scan [] current = None.
Proof. reflexivity. Qed.

Lemma scan_one a current :
  scan [a] current
  = if (current =? a)%string
    then Some ((a, "right"), hash_data (a ++ a)%string) else None.
Proof. unfold scan. cbn. destruct (current =? a)%string; reflexivity. Qed.

Lemma scan_two a b rest current :
  scan (a :: b :: rest) current
  = if (current =? a)%string then Some ((b, "right"), hash_data (a ++ b)%string)
    else if (current =? b)%string then Some ((a, "left"), hash_data (a ++ b)%string)
    else scan rest current.
Proof.
  unfold scan. cbn [List.length]. rewrite range2_SS.
  cbn [scan_level]. rewrite scan_level_shift. reflexivity.
Qed.

(** A node of the level is found; the step it yields names a node of the
    level as sibling, its side is one of the two literals, the new current
    hash is a node of the next level, and the verifier's step recomputes it. *)
Lemma scan_found level current :
  In current level ->
  exists sibling side parent,
    scan level current = Some ((sibling, side), parent)
    /\ In sibling level
    /\ (side = "left" \/ side = "right")
    /\ In parent (next_level level)
    /\ verify_loop [(sibling, side)] current = Some parent.
Proof.
  induction level as [|a|a b rest IH] using list_ind2; intros Hin.
  - destruct Hin.
  - destruct Hin as [<-|[]]. rewrite scan_one, String.eqb_refl.
    exists a, "right", (hash_data (a ++ a)%string). cbn. auto 10.
  - rewrite scan_two, next_level_two.
    destruct (String.eqb_spec current a) as [->|Ha].
    { exists b, "right", (hash_data (a ++ b)%string). cbn. auto 10. }
    destruct (String.eqb_spec current b) as [->|Hb].
    { exists a, "left", (hash_data (a ++ b)%string). cbn. auto 10. }
    destruct Hin as [E|[E|Hin]]; [congruence..|].
    destruct (IH Hin) as (s & sd & p & Hs & Hsib & Hside & Hp & Hv).
    exists s, sd, p. cbn [In]. auto 10.
Qed.

(** A hash that is no node of the level is not found. *)
Lemma scan_not_found level current :
  ~ In current level -> scan level current = None.
Proof.
  induction level as [|a|a b rest IH] using list_ind2; intros Hin.
  - reflexivity.
  - rewrite scan_one. destruct (String.eqb_spec current a) as [->|]; [|reflexivity].
    exfalso. apply Hin. now left.
  - rewrite scan_two.
    destruct (String.eqb_spec current a) as [->|]; [exfalso; apply Hin; cbn; auto|].
    destruct (String.eqb_spec current b) as [->|]; [exfalso; apply Hin; cbn; auto|].
    apply IH. intros H. apply Hin. cbn. auto.
Qed.

End Level.

(* ================================================================== *)
(** * The tree: what the [while] loop builds *)
(* ================================================================== *)

Section Tree.
Context {hash : HashFn}.

(** The loop invariant: started on [pre ++ [top]] with fuel for [top], the
    loop leaves [pre] alone and completes [top] into a chain. *)
Lemma while_loop_chain fuel :
  forall pre top,
    top <> [] -> List.length top <= fuel ->
    exists suffix,
      while_loop fuel (pre ++ [top]) = Some (pre ++ suffix)
      /\ chain suffix /\ hd [] suffix = top.
Proof.
  induction fuel as [|fuel IH]; intros pre top Hne Hfuel.
  - destruct top; [easy | cbn in Hfuel; lia].
  - cbn [while_loop]. rewrite last_last.
    destruct (Nat.ltb_spec 1 (List.length top)) as [Hlt|Hle].
    + destruct (IH (pre ++ [top]) (next_level top)) as (suffix & Hrun & Hchain & Hhd).
      { now apply next_level_not_nil. }
      { pose proof (next_level_shrinks top Hlt). lia. }
      exists (top :: suffix). rewrite Hrun, <- app_assoc. split; [reflexivity|].
      split; [|reflexivity].
      destruct suffix as [|l rest]; [inversion Hchain|]. cbn in Hhd. subst l.
      now constructor.
    + destruct top as [|root [|? ?]]; [easy| |cbn in Hle; lia].
      exists [[root]]. repeat split. constructor.
Qed.

(** More fuel does not change the result of a run that ended. *)
Lemma while_loop_more_fuel fuel :
  forall tree result fuel',
    while_loop fuel tree = Some result -> fuel <= fuel' ->
    while_loop fuel' tree = Some result.
Proof.
  induction fuel as [|fuel IH]; intros tree result fuel' Hrun Hle; [discriminate|].
  destruct fuel' as [|fuel']; [lia|].
  cbn [while_loop] in *.
  destruct (1 <? List.length (last tree []))%nat; [|exact Hrun].
  apply (IH _ _ _ Hrun). lia.
Qed.

Lemma build_merkle_tree_fuel_chain leaf_hashes fuel :
  leaf_hashes <> [] -> List.length leaf_hashes <= fuel ->
  exists tree,
    build_merkle_tree_fuel fuel leaf_hashes = Some tree
    /\ chain tree /\ hd [] tree = leaf_hashes.
Proof.
  intros Hne Hfuel.
  destruct (while_loop_chain fuel [] leaf_hashes Hne Hfuel) as (tree & Hrun & H).
  exists tree. split; [|exact H].
  destruct leaf_hashes; [easy | exact Hrun].
Qed.

Lemma build_merkle_tree_chain leaf_hashes :
  leaf_hashes <> [] ->
  chain (build_merkle_tree leaf_hashes)
  /\ hd [] (build_merkle_tree leaf_hashes) = leaf_hashes.
Proof.
  intros Hne. unfold build_merkle_tree.
  destruct (build_merkle_tree_fuel_chain leaf_hashes (List.length leaf_hashes) Hne)
    as (tree & -> & H); [lia | exact H].
Qed.

Lemma build_merkle_tree_nil : build_merkle_tree [] = [].
Proof. reflexivity. Qed.

(** ** Shape of a chain *)

Lemma chain_not_nil tree : chain tree -> tree <> [].
Proof. now destruct 1. Qed.

Lemma chain_last tree : chain tree -> exists root, last tree [] = [root].
Proof.
  induction 1 as [root|level rest Hlen Hchain IH]; [now exists root|].
  exact IH.
Qed.

Lemma chain_consecutive tree :
  chain tree ->
  forall k level parents,
    nth_error tree k = Some level -> nth_error tree (S k) = Some parents ->
    1 < List.length level /\ parents = next_level level.
Proof.
  induction 1 as [root|level0 rest Hlen Hchain IH]; intros k level parents Hk HSk.
  - destruct k; discriminate.
  - destruct k as [|k].
    + cbn in Hk, HSk. injection Hk as <-. injection HSk as <-. now split.
    + exact (IH k level parents Hk HSk).
Qed.

End Tree.

(* ================================================================== *)
(** * The prover and the verifier *)
(* ================================================================== *)

Section Proofs.
Context {hash : HashFn}.

Lemma proof_loop_shift level tree indices proof current :
  proof_loop (level :: tree) (map S indices) proof current
  = proof_loop tree indices proof current.
Proof.
  revert proof current.
  induction indices as [|i indices IH]; intros proof current; [reflexivity|].
  cbn [map proof_loop nth].
  destruct (scan_level (nth i tree []) current _) as [[step parent]|];
    [apply IH | reflexivity].
Qed.

Lemma climb_top level proof current : climb [level] proof current = proof.
Proof. reflexivity. Qed.

Lemma climb_step level parents rest proof current :
  climb (level :: parents :: rest) proof current
  = match scan level current with
    | Some (step, parent) => climb (parents :: rest) (proof ++ [step]) parent
    | None => []
    end.
Proof.
  unfold climb, scan. cbn [List.length Nat.sub seq proof_loop nth].
  destruct (scan_level level current _) as [[step parent]|]; [|reflexivity].
  rewrite <- seq_shift, proof_loop_shift. now rewrite Nat.sub_0_r.
Qed.

Lemma get_merkle_proof_climb tree target_hash :
  hd [] tree <> [] -> get_merkle_proof tree target_hash = climb tree [] target_hash.
Proof. destruct tree as [|[|a level] rest]; cbn [hd]; easy. Qed.

(** The verifier's loop runs through a proof extended by one step. *)
Lemma verify_loop_app proof1 proof2 target current :
  verify_loop proof1 target = Some current ->
  verify_loop (proof1 ++ proof2) target = verify_loop proof2 current.
Proof.
  revert target. induction proof1 as [|[sibling side] proof1 IH]; intros target H.
  - cbn in H. now injection H as <-.
  - cbn [app verify_loop] in *.
    destruct (side =? "left")%string; [now apply IH|].
    destruct (side =? "right")%string; [now apply IH | discriminate].
Qed.

(** The prover on a chain.  Started on a node of the bottom level with a
    proof that takes [target] to that node, it ends with a proof that takes
    [target] to the root, having added one step per level below the root. *)
Lemma climb_chain tree :
  chain tree ->
  forall proof levels current target,
    In current (hd [] tree) ->
    verify_loop proof target = Some current ->
    Forall2 step_of proof levels ->
    exists root,
      last tree [] = [root]
      /\ verify_loop (climb tree proof current) target = Some root
      /\ Forall2 step_of (climb tree proof current) (levels ++ removelast tree).
Proof.
  induction 1 as [root|level rest Hlen Hchain IH];
    intros proof levels current target Hin Hver Hsteps.
  - exists root. rewrite climb_top. cbn [removelast]. rewrite app_nil_r.
    destruct Hin as [<-|[]]. auto.
  - cbn [hd] in Hin. rewrite climb_step.
    destruct (scan_found level current Hin)
      as (sibling & side & parent & -> & Hsib & Hside & Hparent & Hstep).
    destruct (IH (proof ++ [(sibling, side)]) (levels ++ [level]) parent target)
      as (root & Hlast & Hroot & Hshape).
    + exact Hparent.
    + now rewrite (verify_loop_app _ _ _ _ Hver).
    + apply Forall2_app; [exact Hsteps|].
      constructor; [split; assumption | constructor].
    + exists root. split; [exact Hlast|]. split; [exact Hroot|].
      rewrite <- app_assoc in Hshape. exact Hshape.
Qed.

(** The prover on a tree of the builder, for a leaf of the tree. *)
Lemma get_merkle_proof_built leaf_hashes target_hash :
  In target_hash leaf_hashes ->
  let tree := build_merkle_tree leaf_hashes in
  verify_loop (get_merkle_proof tree target_hash) target_hash
  = Some (get_merkle_root tree)
  /\ Forall2 step_of (get_merkle_proof tree target_hash) (removelast tree).
Proof.
  intros Hin tree.
  assert (Hne : leaf_hashes <> []) by (intros ->; destruct Hin).
  destruct (build_merkle_tree_chain leaf_hashes Hne) as [Hchain Hhd].
  fold tree in Hchain, Hhd.
  rewrite get_merkle_proof_climb by (now rewrite Hhd).
  destruct (climb_chain tree Hchain [] [] target_hash target_hash)
    as (root & Hlast & Hroot & Hshape).
  - now rewrite Hhd.
  - reflexivity.
  - constructor.
  - split; [|exact Hshape]. rewrite Hroot. f_equal.
    unfold get_merkle_root. rewrite Hlast.
    destruct tree; [now apply chain_not_nil in Hchain | reflexivity].
Qed.

End Proofs.

(* ================================================================== *)
(** * Auxiliary facts on lists *)
(* ================================================================== *)

Lemma Forall2_same_length (A B : Type) (R : A -> B -> Prop) l l' :
  Forall2 R l l' -> List.length l = List.length l'.
Proof. induction 1; cbn; congruence. Qed.

Lemma length_removelast (A : Type) (l : list A) :
  List.length (removelast l) = List.length l - 1.
Proof.
  induction l as [|a [|b l] IH]; [reflexivity..|].
  change (removelast (a :: b :: l)) with (a :: removelast (b :: l)).
  cbn [List.length] in *. lia.
Qed.

Lemma nth_error_removelast (A : Type) (l : list A) k x :
  nth_error (removelast l) k = Some x -> nth_error l k = Some x.
Proof.
  revert k. induction l as [|a [|b l] IH]; intros k H.
  - destruct k; discriminate.
  - destruct k; discriminate.
  - change (removelast (a :: b :: l)) with (a :: removelast (b :: l)) in H.
    destruct k as [|k]; [exact H | exact (IH k H)].
Qed.

Lemma Forall2_nth_error (A B : Type) (R : A -> B -> Prop) l l' k x :
  Forall2 R l l' -> nth_error l k = Some x ->
  exists y, nth_error l' k = Some y /\ R x y.
Proof.
  intros H. revert k. induction H as [|a b l l' Hab H IH]; intros k Hk.
  - destruct k; discriminate.
  - destruct k as [|k]; [injection Hk as <-; now exists b | exact (IH k Hk)].
Qed.

(* ================================================================== *)
(** * The claims *)
(* ================================================================== *)

Section Claims.
Context {hash : HashFn}.

Lemma next_level_nth level j :
  j < List.length (next_level level) ->
  nth j (next_level level) ""
  = hash_data (nth (2 * j) level ""
               ++ (if (2 * j + 1 <? List.length level)%nat
                   then nth (2 * j + 1) level "" else nth (2 * j) level ""))%string.
Proof.
  intros Hj. rewrite length_next_level in Hj. unfold next_level.
  set (f := fun i : nat => _).
  rewrite (nth_indep _ "" (f 0)) by now rewrite length_map, length_range2.
  rewrite (map_nth f), nth_range2 by assumption. reflexivity.
Qed.

Lemma next_level_last_odd level :
  Nat.odd (List.length level) = true ->
  last (next_level level) "" = hash_data (last level "" ++ last level "")%string.
Proof.
  induction level as [|a|a b rest IH] using list_ind2; intros Hodd.
  - discriminate.
  - reflexivity.
  - rewrite next_level_two.
    assert (Hrest : rest <> []) by (intros ->; discriminate).
    pose proof (next_level_not_nil rest Hrest) as Hnext.
    change (last (a :: b :: rest) "") with (last (b :: rest) "").
    destruct rest as [|c rest]; [easy|].
    destruct (next_level (c :: rest)) as [|p parents] eqn:E; [easy|].
    change (last (b :: c :: rest) "") with (last (c :: rest) "").
    change (last (_ :: p :: parents) "") with (last (p :: parents) "").
    apply IH. exact Hodd.
Qed.

(** C1 -- round trip: for every list of leaf digests and every index in
    range, the proof the prover derives from the built tree for the leaf at
    that index is accepted by the verifier against the root of that tree. *)
Theorem round_trip_proof (leaf_hashes : list string) (i : nat) (target_hash : string) :
  nth_error leaf_hashes i = Some target_hash ->
  verify_merkle_proof
    (get_merkle_proof (build_merkle_tree leaf_hashes) target_hash)
    target_hash
    (get_merkle_root (build_merkle_tree leaf_hashes)) = true.
Proof.
  intros Hi. apply nth_error_In in Hi.
  destruct (get_merkle_proof_built leaf_hashes target_hash Hi) as [Hver _].
  unfold verify_merkle_proof. rewrite Hver. apply String.eqb_refl.
Qed.

(** C2 -- odd-node duplication: the root of the tree over three digests
    [a], [b], [c] is [hash (hash (a ++ b) ++ hash (c ++ c))]; and in every
    built tree each node of a level above the leaves is the hash of its left
    child followed by its right child, where the right child of the node at
    [j] is the node at [2j+1] of the level below when there is one and the
    node at [2j] again otherwise, so the last node of a level of odd length
    is paired with itself. *)
Theorem odd_node_duplication :
  (forall a b c : string,
     get_merkle_root (build_merkle_tree [a; b; c])
     = hash_data (hash_data (a ++ b) ++ hash_data (c ++ c))%string)
  /\ (forall leaf_hashes k level parents,
        nth_error (build_merkle_tree leaf_hashes) k = Some level ->
        nth_error (build_merkle_tree leaf_hashes) (S k) = Some parents ->
        (forall j, j < List.length parents ->
           nth j parents ""
           = hash_data (nth (2 * j) level ""
                        ++ (if (2 * j + 1 <? List.length level)%nat
                            then nth (2 * j + 1) level ""
                            else nth (2 * j) level ""))%string)
        /\ (Nat.odd (List.length level) = true ->
            last parents ""
            = hash_data (last level "" ++ last level "")%string)).
Proof.
  split; [reflexivity|].
  intros leaf_hashes k level parents Hk HSk.
  assert (Hne : leaf_hashes <> []).
  { intros ->. destruct k; discriminate. }
  destruct (build_merkle_tree_chain leaf_hashes Hne) as [Hchain _].
  destruct (chain_consecutive _ Hchain k level parents Hk HSk) as [_ ->].
  split; [intros j; apply next_level_nth | apply next_level_last_odd].
Qed.

(** C3, as amended -- a proof generated from the tree of [A] for a leaf of
    [A] is accepted against the root of the tree of [B] exactly when the two
    roots are equal; it fails against every different root. *)
Theorem proof_transfer (A B : list string) (i : nat) (target_hash : string) :
  nth_error A i = Some target_hash ->
  verify_merkle_proof
    (get_merkle_proof (build_merkle_tree A) target_hash)
    target_hash
    (get_merkle_root (build_merkle_tree B))
  = compare_merkle_roots (get_merkle_root (build_merkle_tree A))
                         (get_merkle_root (build_merkle_tree B)).
Proof.
  intros Hi. apply nth_error_In in Hi.
  destruct (get_merkle_proof_built A target_hash Hi) as [Hver _].
  unfold verify_merkle_proof. now rewrite Hver.
Qed.

(** C4 -- tree shape: in the tree built from a non-empty list every level
    above the leaves has [ceil (n / 2)] nodes, [n] the number of nodes of
    the level below, and the final level has exactly one node. *)
Theorem tree_shape (leaf_hashes : list string) :
  leaf_hashes <> [] ->
  (forall k level parents,
     nth_error (build_merkle_tree leaf_hashes) k = Some level ->
     nth_error (build_merkle_tree leaf_hashes) (S k) = Some parents ->
     List.length parents = (List.length level + 1) / 2)
  /\ List.length (last (build_merkle_tree leaf_hashes) []) = 1.
Proof.
  intros Hne. destruct (build_merkle_tree_chain leaf_hashes Hne) as [Hchain _].
  split.
  - intros k level parents Hk HSk.
    destruct (chain_consecutive _ Hchain k level parents Hk HSk) as [_ ->].
    now rewrite length_next_level, Nat.div2_div, Nat.add_1_r.
  - destruct (chain_last _ Hchain) as [root ->]. reflexivity.
Qed.

(** C5 -- proof length: for a target that occurs among the leaves, the
    proof has exactly [len(tree) - 1] steps, and its steps follow the levels
    below the root from the bottom up: the [k]-th step carries a node of
    level [k] as sibling and a side that is ["left"] or ["right"]. *)
Theorem proof_length (leaf_hashes : list string) (target_hash : string) :
  In target_hash leaf_hashes ->
  List.length (get_merkle_proof (build_merkle_tree leaf_hashes) target_hash)
  = List.length (build_merkle_tree leaf_hashes) - 1
  /\ (forall k sibling side,
        nth_error (get_merkle_proof (build_merkle_tree leaf_hashes) target_hash) k
        = Some (sibling, side) ->
        exists level,
          nth_error (build_merkle_tree leaf_hashes) k = Some level
          /\ k < List.length (build_merkle_tree leaf_hashes) - 1
          /\ In sibling level
          /\ (side = "left" \/ side = "right")).
Proof.
  intros Hin.
  destruct (get_merkle_proof_built leaf_hashes target_hash Hin) as [_ Hshape].
  cbv zeta in Hshape. split.
  - now rewrite (Forall2_same_length _ _ _ _ _ Hshape), length_removelast.
  - intros k sibling side Hk.
    destruct (Forall2_nth_error _ _ _ _ _ _ _ Hshape Hk) as (level & Hlevel & Hsib & Hside).
    exists level. split; [now apply nth_error_removelast|]. split; [|now split].
    rewrite <- length_removelast. apply nth_error_Some. congruence.
Qed.

(** C6 -- single leaf: the tree over one digest [h] is the one level [[h]],
    its root is [h] itself, the proof for [h] is empty, and the empty proof
    verifies [h] against the root [h]. *)
Theorem single_leaf_tree (h : string) :
  build_merkle_tree [h] = [[h]]
  /\ get_merkle_root (build_merkle_tree [h]) = h
  /\ get_merkle_proof (build_merkle_tree [h]) h = []
  /\ verify_merkle_proof [] h h = true.
Proof.
  repeat split. unfold verify_merkle_proof. cbn. apply String.eqb_refl.
Qed.

(** C7 -- empty input: the tree over no leaf has no level, its root is the
    sentinel ['EMPTY_CONTRACT'], and every proof from it is empty. *)
Theorem empty_input :
  build_merkle_tree [] = []
  /\ get_merkle_root (build_merkle_tree []) = "EMPTY_CONTRACT"
  /\ forall target_hash, get_merkle_proof (build_merkle_tree []) target_hash = [].
Proof. repeat split. Qed.

(** C8 -- not found: on the tree built from at least two leaves, a target
    that is none of the leaves gets the empty proof. *)
Theorem target_not_found (leaf_hashes : list string) (target_hash : string) :
  2 <= List.length leaf_hashes ->
  ~ In target_hash leaf_hashes ->
  get_merkle_proof (build_merkle_tree leaf_hashes) target_hash = [].
Proof.
  intros Hlen Hnot.
  assert (Hne : leaf_hashes <> []) by (intros ->; cbn in Hlen; lia).
  destruct (build_merkle_tree_chain leaf_hashes Hne) as [Hchain Hhd].
  rewrite get_merkle_proof_climb by now rewrite Hhd.
  destruct Hchain as [root|level rest Hlevel Hchain]; cbn [hd] in Hhd; subst leaf_hashes.
  - cbn in Hlen. lia.
  - rewrite climb_step, scan_not_found by assumption. reflexivity.
Qed.

(** C9 -- single leaf and not found look alike: on a one-level tree [[h]],
    the tree the builder returns for the single leaf [h], every target gets
    the empty proof, the leaf [h] and any other string the same. *)
Theorem single_leaf_conflation (h target_hash : string) :
  get_merkle_proof [[h]] target_hash = []
  /\ get_merkle_proof [[h]] target_hash = get_merkle_proof [[h]] h
  /\ get_merkle_proof (build_merkle_tree [h]) target_hash = [].
Proof. repeat split. Qed.

(** C10 -- termination: a level of more than one node is followed by a
    strictly shorter one, of [ceil (n / 2)] nodes, so the loop of the builder
    ends: with fuel for as many rounds as there are leaves, or more, it
    returns a tree, the one [build_merkle_tree] denotes. *)
Theorem build_merkle_tree_total (leaf_hashes : list string) :
  (forall level,
     1 < List.length level ->
     List.length (next_level level) = (List.length level + 1) / 2
     /\ List.length (next_level level) < List.length level)
  /\ exists tree,
       (forall fuel, List.length leaf_hashes <= fuel ->
                     build_merkle_tree_fuel fuel leaf_hashes = Some tree)
       /\ build_merkle_tree leaf_hashes = tree.
Proof.
  split.
  - intros level Hlen. split; [|now apply next_level_shrinks].
    now rewrite length_next_level, Nat.div2_div, Nat.add_1_r.
  - exists (build_merkle_tree leaf_hashes). split; [|reflexivity].
    intros fuel Hfuel. destruct leaf_hashes as [|a leaves]; [reflexivity|].
    set (L := a :: leaves) in *. assert (Hne : L <> []) by easy.
    unfold build_merkle_tree.
    destruct (build_merkle_tree_fuel_chain L (List.length L) Hne (le_n _))
      as (tree & Hrun & _).
    rewrite Hrun. exact (while_loop_more_fuel _ _ _ _ Hrun Hfuel).
Qed.

End Claims.

(* ================================================================== *)
(** * The claims at the contracts of the demonstration *)
(* ================================================================== *)

Example hashes_v1_of_clauses : hashes_v1 = map hash_data clauses_v1.
Proof. vm_compute. reflexivity. Qed.

Example hashes_v2_of_clauses : hashes_v2 = map hash_data clauses_v2.
Proof. vm_compute. reflexivity. Qed.

(** The demonstration of lines 246-261: the proof for clause 2 of contract 1
    passes against the root of contract 1 and fails against that of
    contract 2. *)
Example demonstration_v1 :
  let proof_v1 := get_merkle_proof (build_merkle_tree hashes_v1) target_hash_v1 in
  verify_merkle_proof proof_v1 target_hash_v1
    (get_merkle_root (build_merkle_tree hashes_v1)) = true
  /\ verify_merkle_proof proof_v1 target_hash_v1
       (get_merkle_root (build_merkle_tree hashes_v2)) = false.
Proof. vm_compute. split; reflexivity. Qed.

(** The loop does need its fuel: one round is not enough for two leaves. *)
Example two_leaves_one_round (a b : string) :
  @build_merkle_tree_fuel sha256_hash 1 [a; b] = None
  /\ @build_merkle_tree_fuel sha256_hash 2 [a; b] = Some [[a; b]; [hash_data (a ++ b)%string]].
Proof. split; reflexivity. Qed.

(** A target that is not the leaf of a one-leaf tree gets the proof the leaf
    gets. *)
Example single_leaf_absent_target :
  let h := nth 0 hashes_v1 "" in
  ~ In target_hash_v1 [h]
  /\ get_merkle_proof (build_merkle_tree [h]) target_hash_v1
     = get_merkle_proof (build_merkle_tree [h]) h.
Proof. split; [intros [H|[]]; discriminate H | reflexivity]. Qed.

Lemma round_trip_proof_witness :
  nth_error hashes_v1 1 = Some target_hash_v1
  /\ verify_merkle_proof
       (get_merkle_proof (build_merkle_tree hashes_v1) target_hash_v1)
       target_hash_v1
       (get_merkle_root (build_merkle_tree hashes_v1)) = true.
Proof.
  split; [reflexivity|].
  apply (round_trip_proof hashes_v1 1 target_hash_v1). reflexivity.
Defined.

(** C3 as stated fails.  Contract 1 and contract 1 with its last clause
    written twice are different leaf lists, yet the proof for clause 2 of
    the first is accepted against the root of the second: the builder pairs
    the odd third leaf with itself, which is what the fourth leaf does. *)
Lemma proof_transfer_counterexample :
  hashes_v1 <> [] /\ hashes_v1_repeated <> []
  /\ hashes_v1 <> hashes_v1_repeated
  /\ List.length hashes_v1 = 3 /\ List.length hashes_v1_repeated = 4
  /\ nth_error hashes_v1 1 = Some target_hash_v1
  /\ verify_merkle_proof
       (get_merkle_proof (build_merkle_tree hashes_v1) target_hash_v1)
       target_hash_v1
       (get_merkle_root (build_merkle_tree hashes_v1_repeated)) = true.
Proof.
  split; [discriminate|]. split; [discriminate|]. split; [discriminate|].
  split; [reflexivity|]. split; [reflexivity|]. split; [reflexivity|].
  vm_compute. reflexivity.
Qed.

(** The same with two leaves on each side, for whatever digest the program
    uses: the parent only sees the concatenation of its children, so leaves
    that split the same text differently share the root.  (These leaves are
    not digests of one length; the program accepts them all the same.) *)
Example proof_transfer_same_length (hash : HashFn) :
  ["ab"; "c"] <> ["a"; "bc"]
  /\ verify_merkle_proof
       (get_merkle_proof (build_merkle_tree ["ab"; "c"]) "ab") "ab"
       (get_merkle_root (build_merkle_tree ["a"; "bc"])) = true.
Proof.
  split; [discriminate|].
  unfold verify_merkle_proof. cbn. apply String.eqb_refl.
Qed.

Lemma proof_transfer_witness :
  nth_error hashes_v1 1 = Some target_hash_v1
  /\ verify_merkle_proof
       (get_merkle_proof (build_merkle_tree hashes_v1) target_hash_v1)
       target_hash_v1
       (get_merkle_root (build_merkle_tree hashes_v2))
     = compare_merkle_roots (get_merkle_root (build_merkle_tree hashes_v1))
                            (get_merkle_root (build_merkle_tree hashes_v2)).
Proof.
  split; [reflexivity|].
  apply (proof_transfer hashes_v1 hashes_v2 1 target_hash_v1). reflexivity.
Defined.

Lemma tree_shape_witness :
  hashes_v1 <> []
  /\ (forall k level parents,
        nth_error (build_merkle_tree hashes_v1) k = Some level ->
        nth_error (build_merkle_tree hashes_v1) (S k) = Some parents ->
        List.length parents = (List.length level + 1) / 2)
  /\ List.length (last (build_merkle_tree hashes_v1) []) = 1.
Proof.
  assert (H : hashes_v1 <> []) by discriminate.
  split; [exact H | exact (tree_shape hashes_v1 H)].
Defined.

Lemma proof_length_witness :
  In target_hash_v1 hashes_v1
  /\ List.length (get_merkle_proof (build_merkle_tree hashes_v1) target_hash_v1)
     = List.length (build_merkle_tree hashes_v1) - 1.
Proof.
  assert (H : In target_hash_v1 hashes_v1) by (right; left; reflexivity).
  split; [exact H | exact (proj1 (proof_length hashes_v1 target_hash_v1 H))].
Defined.

Lemma target_not_found_witness :
  2 <= List.length hashes_v1
  /\ ~ In (hash_data "Clause 4: An additional clause.") hashes_v1
  /\ get_merkle_proof (build_merkle_tree hashes_v1)
       (hash_data "Clause 4: An additional clause.") = [].
Proof.
  assert (Hlen : 2 <= List.length hashes_v1) by (cbn; lia).
  assert (Hnot : ~ In (hash_data "Clause 4: An additional clause.") hashes_v1).
  { vm_compute. intros [H|[H|[H|[]]]]; discriminate H. }
  split; [exact Hlen|]. split; [exact Hnot|].
  exact (target_not_found hashes_v1 _ Hlen Hnot).
Defined.

(* ================================================================== *)
(** * Further properties of the builder, the prover and the verifier *)
(* ================================================================== *)

(** ** Strings *)

Lemma length_append (s1 s2 : string) :
  String.length (s1 ++ s2)%string = String.length s1 + String.length s2.
Proof. induction s1 as [|c s1 IH]; cbn; [reflexivity | now rewrite IH]. Qed.

Lemma append_inv_head (s t1 t2 : string) : (s ++ t1 = s ++ t2)%string -> t1 = t2.
Proof. induction s as [|c s IH]; cbn; intros H; [exact H | injection H; auto]. Qed.

Lemma append_inv_tail (s t1 t2 : string) : (t1 ++ s = t2 ++ s)%string -> t1 = t2.
Proof.
  revert t2. induction t1 as [|c t1 IH]; intros [|c2 t2] H.
  - reflexivity.
  - apply (f_equal String.length) in H. cbn in H. rewrite length_append in H. lia.
  - apply (f_equal String.length) in H. cbn in H. rewrite length_append in H. lia.
  - cbn in H. injection H as -> H. f_equal. now apply IH.
Qed.


Section Further.
Context {hash : HashFn}.

(** ** The height of the tree *)

Lemma chain_height tree :
  chain tree ->
  List.length (hd [] tree) <= 2 ^ (List.length tree - 1)
  /\ 2 ^ (List.length tree - 1) < 2 * List.length (hd [] tree).
Proof.
  induction 1 as [root|level rest Hlen Hchain IH]; [cbn; lia|].
  cbn [hd List.length] in *. rewrite length_next_level, Nat.div2_div in IH.
  replace (S (S (List.length rest)) - 1) with (S (List.length rest)) by lia.
  replace (S (List.length rest) - 1) with (List.length rest) in IH by lia.
  set (n := List.length level) in *. clearbody n.
  pose proof (Nat.div_mod_eq (S n) 2) as Hdiv.
  pose proof (Nat.mod_upper_bound (S n) 2 (Nat.neq_succ_0 1)) as Hmod.
  revert IH Hdiv Hmod. generalize (S n / 2) (S n mod 2). intros d r IH Hdiv Hmod.
  destruct (List.length rest) as [|h'].
  - change (2 ^ 0) with 1 in IH. change (2 ^ 1) with 2. lia.
  - rewrite !Nat.pow_succ_r' in *. revert IH. generalize (2 ^ h'). intros q IH. lia.
Qed.

Lemma chain_levels tree :
  chain tree -> List.length tree = S (Nat.log2_up (List.length (hd [] tree))).
Proof.
  intros Hchain. destruct (chain_height tree Hchain) as [Hle Hlt].
  pose proof (chain_not_nil tree Hchain) as Hne.
  destruct (List.length tree) as [|[|h]] eqn:E.
  - destruct tree; [easy | discriminate].
  - cbn in Hle, Hlt.
    assert (List.length (hd [] tree) = 1) as -> by lia. reflexivity.
  - f_equal. symmetry. apply Nat.log2_up_unique; [lia|].
    replace (S (S h) - 1) with (S h) in * by lia. cbn [Nat.pred].
    rewrite Nat.pow_succ_r' in Hlt. lia.
Qed.

(** X1 -- height: the tree over [n >= 1] leaves has [1 + ceil (log2 n)]
    levels. *)
Theorem tree_height (leaf_hashes : list string) :
  leaf_hashes <> [] ->
  List.length (build_merkle_tree leaf_hashes)
  = S (Nat.log2_up (List.length leaf_hashes)).
Proof.
  intros Hne. destruct (build_merkle_tree_chain leaf_hashes Hne) as [Hchain Hhd].
  now rewrite (chain_levels _ Hchain), Hhd.
Qed.

(** X2 -- logarithmic proofs: the proof for a leaf of a list of [n] leaves
    has [ceil (log2 n)] steps. *)
Theorem proof_length_log (leaf_hashes : list string) (target_hash : string) :
  In target_hash leaf_hashes ->
  List.length (get_merkle_proof (build_merkle_tree leaf_hashes) target_hash)
  = Nat.log2_up (List.length leaf_hashes).
Proof.
  intros Hin.
  assert (Hne : leaf_hashes <> []) by (intros ->; destruct Hin).
  destruct (get_merkle_proof_built leaf_hashes target_hash Hin) as [_ Hshape].
  cbv zeta in Hshape.
  destruct (build_merkle_tree_chain leaf_hashes Hne) as [Hchain Hhd].
  rewrite (Forall2_same_length _ _ _ _ _ Hshape), length_removelast.
  rewrite (chain_levels _ Hchain), Hhd. lia.
Qed.

(** X3 -- level 0 is the input: the builder keeps the leaves as they were
    given, in their order and with their repetitions, and no level of the
    tree is empty. *)
Theorem leaves_kept (leaf_hashes : list string) :
  leaf_hashes <> [] ->
  nth_error (build_merkle_tree leaf_hashes) 0 = Some leaf_hashes
  /\ Forall (fun level => level <> []) (build_merkle_tree leaf_hashes).
Proof.
  intros Hne. destruct (build_merkle_tree_chain leaf_hashes Hne) as [Hchain Hhd].
  split.
  - destruct (build_merkle_tree leaf_hashes) as [|level rest];
      [now apply chain_not_nil in Hchain | cbn in *; now subst].
  - clear Hhd. induction Hchain as [root|level rest Hlen Hchain IH].
    + now repeat constructor.
    + constructor; [|exact IH]. intros ->. cbn in Hlen. lia.
Qed.

(** ** The prover on any tree *)

Lemma scan_step level current step parent :
  scan level current = Some (step, parent) -> step_of step level.
Proof.
  induction level as [|a|a b rest IH] using list_ind2.
  - discriminate.
  - rewrite scan_one. destruct (current =? a)%string; [|discriminate].
    intros H. injection H as <- _. split; cbn; auto.
  - rewrite scan_two.
    destruct (current =? a)%string.
    { intros H. injection H as <- _. split; cbn; auto. }
    destruct (current =? b)%string.
    { intros H. injection H as <- _. split; cbn; auto. }
    intros H. destruct (IH H) as [Hin Hside]. split; [cbn; auto | exact Hside].
Qed.

Lemma map_nth_seq (A : Type) (l : list A) (d : A) k :
  k <= List.length l -> map (fun i => nth i l d) (seq 0 k) = firstn k l.
Proof.
  revert k. induction l as [|a l IH]; intros k Hk.
  - cbn in Hk. assert (k = 0) as -> by lia. reflexivity.
  - destruct k as [|k]; [reflexivity|]. cbn [seq map firstn nth]. f_equal.
    rewrite <- seq_shift, map_map. apply IH. cbn in Hk. lia.
Qed.

Lemma proof_loop_shape tree indices :
  forall proof levels current,
    Forall2 step_of proof levels ->
    proof_loop tree indices proof current = []
    \/ Forall2 step_of (proof_loop tree indices proof current)
         (levels ++ map (fun i => nth i tree []) indices).
Proof.
  induction indices as [|i indices IH]; intros proof levels current Hsteps.
  - right. cbn. now rewrite app_nil_r.
  - cbn [proof_loop map].
    destruct (scan_level _ _ _) as [[step parent]|] eqn:E; [|now left].
    apply scan_step in E.
    destruct (IH (proof ++ [step]) (levels ++ [nth i tree []]) parent) as [H|H].
    + apply Forall2_app; [exact Hsteps | constructor; [exact E | constructor]].
    + now left.
    + right. now rewrite <- app_assoc in H.
Qed.

Lemma get_merkle_proof_shape tree target_hash :
  get_merkle_proof tree target_hash = []
  \/ Forall2 step_of (get_merkle_proof tree target_hash) (removelast tree).
Proof.
  destruct tree as [|[|a level] rest]; [now left..|].
  set (tree := (a :: level) :: rest).
  change (get_merkle_proof tree target_hash)
    with (proof_loop tree (seq 0 (List.length tree - 1)) [] target_hash).
  destruct (proof_loop_shape tree (seq 0 (List.length tree - 1)) [] [] target_hash)
    as [H|H]; [constructor | now left | right].
  rewrite map_nth_seq, app_nil_l in H by lia.
  now rewrite removelast_firstn_len, <- Nat.sub_1_r.
Qed.

(** X4 -- all or nothing: on any tree, built by the builder or not, the
    prover returns either no step at all or a step for every level below
    the top one; it never returns a part of a path.  Each step carries a
    node of its level and the side ["left"] or ["right"]. *)
Theorem proof_all_or_nothing (tree : list (list string)) (target_hash : string) :
  get_merkle_proof tree target_hash = []
  \/ (List.length (get_merkle_proof tree target_hash) = List.length tree - 1
      /\ forall k sibling side,
           nth_error (get_merkle_proof tree target_hash) k = Some (sibling, side) ->
           (side = "left" \/ side = "right")
           /\ exists level, nth_error tree k = Some level /\ In sibling level).
Proof.
  destruct (get_merkle_proof_shape tree target_hash) as [H|H]; [now left | right].
  split.
  - now rewrite (Forall2_same_length _ _ _ _ _ H), length_removelast.
  - intros k sibling side Hk.
    destruct (Forall2_nth_error _ _ _ _ _ _ _ H Hk) as (level & Hlevel & Hsib & Hside).
    split; [exact Hside|]. exists level. split; [now apply nth_error_removelast | exact Hsib].
Qed.

(** X5 -- found or not: on the tree of two leaves or more the proof is
    empty exactly when the target is none of the leaves, so there an empty
    proof does mean "not found". *)
Theorem empty_proof_iff_absent (leaf_hashes : list string) (target_hash : string) :
  2 <= List.length leaf_hashes ->
  get_merkle_proof (build_merkle_tree leaf_hashes) target_hash = []
  <-> ~ In target_hash leaf_hashes.
Proof.
  intros Hlen.
  assert (Hne : leaf_hashes <> []) by (intros ->; cbn in Hlen; lia).
  destruct (build_merkle_tree_chain leaf_hashes Hne) as [Hchain Hhd].
  split.
  - intros Hempty Hin.
    destruct (get_merkle_proof_built leaf_hashes target_hash Hin) as [_ Hshape].
    cbv zeta in Hshape. apply Forall2_same_length in Hshape.
    rewrite Hempty, length_removelast, (chain_levels _ Hchain), Hhd in Hshape.
    cbn in Hshape.
    assert (0 < Nat.log2_up (List.length leaf_hashes)) by (apply Nat.log2_up_pos; lia).
    lia.
  - intros Hnot. rewrite get_merkle_proof_climb by now rewrite Hhd.
    destruct Hchain as [root|level rest Hlevel Hchain]; cbn [hd] in Hhd; subst leaf_hashes.
    + cbn in Hlen. lia.
    + rewrite climb_step, scan_not_found by assumption. reflexivity.
Qed.

(** ** The verifier *)

Lemma verify_loop_invalid_side proof sibling side :
  In (sibling, side) proof -> side <> "left" -> side <> "right" ->
  forall target, verify_loop proof target = None.
Proof.
  intros Hin Hl Hr. induction proof as [|[s sd] proof IH]; [destruct Hin|].
  intros target. cbn [verify_loop].
  destruct (String.eqb_spec sd "left") as [->|Hsl].
  { destruct Hin as [E|Hin]; [congruence | now apply IH]. }
  destruct (String.eqb_spec sd "right") as [->|Hsr]; [|reflexivity].
  destruct Hin as [E|Hin]; [congruence | now apply IH].
Qed.

(** X6 -- invalid side: a proof with a step whose side is neither ["left"]
    nor ["right"] is rejected, whatever the target, the root and the other
    steps. *)
Theorem invalid_side_rejected (proof : MerkleProof) (sibling side : string)
    (target_hash merkle_root : string) :
  In (sibling, side) proof -> side <> "left" -> side <> "right" ->
  verify_merkle_proof proof target_hash merkle_root = false.
Proof.
  intros Hin Hl Hr. unfold verify_merkle_proof.
  now rewrite (verify_loop_invalid_side proof sibling side Hin Hl Hr).
Qed.

(** Two targets that one proof takes to one hash: the targets are equal or
    the walk shows a collision. *)
Lemma verify_loop_binds proof :
  forall target1 target2 computed,
    verify_loop proof target1 = Some computed ->
    verify_loop proof target2 = Some computed ->
    target1 = target2 \/ collision.
Proof.
  induction proof as [|[sibling side] proof IH]; intros t1 t2 computed H1 H2.
  - left. cbn in *. congruence.
  - cbn [verify_loop] in H1, H2.
    destruct (side =? "left")%string.
    { destruct (IH _ _ _ H1 H2) as [E|C]; [|now right].
      destruct (String.string_dec t1 t2) as [|Hne]; [now left | right].
      exists (sibling ++ t1)%string, (sibling ++ t2)%string. split; [|exact E].
      intros Happ. apply Hne. exact (append_inv_head _ _ _ Happ). }
    destruct (side =? "right")%string; [|discriminate].
    destruct (IH _ _ _ H1 H2) as [E|C]; [|now right].
    destruct (String.string_dec t1 t2) as [|Hne]; [now left | right].
    exists (t1 ++ sibling)%string, (t2 ++ sibling)%string. split; [|exact E].
    intros Happ. apply Hne. exact (append_inv_tail _ _ _ Happ).
Qed.

(** X7 -- a proof binds its target: if one proof is accepted for two targets
    against one root, the targets are equal or the digest has a collision
    (two different texts with one hash, which the walk exhibits). *)
Theorem proof_binds_target (proof : MerkleProof) (target1 target2 merkle_root : string) :
  verify_merkle_proof proof target1 merkle_root = true ->
  verify_merkle_proof proof target2 merkle_root = true ->
  target1 = target2 \/ collision.
Proof.
  unfold verify_merkle_proof. intros H1 H2.
  destruct (verify_loop proof target1) as [c1|] eqn:E1; [|discriminate].
  destruct (verify_loop proof target2) as [c2|] eqn:E2; [|discriminate].
  apply String.eqb_eq in H1, H2. subst c1 c2.
  exact (verify_loop_binds proof _ _ _ E1 E2).
Qed.

(** ** What the root commits to *)


Lemma chain_inv level tree :
  chain (level :: tree) -> 1 < List.length level ->
  exists rest, tree = next_level level :: rest /\ chain (next_level level :: rest).
Proof.
  intros Hchain Hlen. inversion Hchain as [root|level' rest Hlen' Hchain']; subst.
  - cbn in Hlen. lia.
  - now exists rest.
Qed.

(** A chain is determined by its bottom level. *)
Lemma chain_unique tree1 :
  chain tree1 -> forall tree2, chain tree2 -> hd [] tree1 = hd [] tree2 -> tree1 = tree2.
Proof.
  induction 1 as [root|level rest Hlen Hchain IH]; intros tree2 Hchain2 Hhd.
  - destruct Hchain2 as [root2|level2 rest2 Hlen2 _]; cbn in Hhd.
    + now rewrite Hhd.
    + subst level2. cbn in Hlen2. lia.
  - destruct Hchain2 as [root2|level2 rest2 Hlen2 Hchain2]; cbn in Hhd.
    + subst level. cbn in Hlen. lia.
    + subst level2. f_equal. now apply IH.
Qed.








(** ** What the root does not commit to: the number of leaves *)

Lemma next_level_odd_repeat level :
  Nat.odd (List.length level) = true ->
  next_level (level ++ [last level ""]) = next_level level.
Proof.
  induction level as [|a|a b rest IH] using list_ind2; intros Hodd.
  - discriminate.
  - cbn [app last]. now rewrite next_level_two, next_level_one.
  - assert (Hrest : rest <> []) by (intros ->; discriminate).
    replace (last (a :: b :: rest) "") with (last rest "")
      by (destruct rest; [easy | reflexivity]).
    cbn [app]. rewrite !next_level_two. f_equal. apply IH. exact Hodd.
Qed.

Lemma get_merkle_root_cons level tree :
  tree <> [] -> get_merkle_root (level :: tree) = get_merkle_root tree.
Proof. destruct tree; [easy | reflexivity]. Qed.

(** X10 -- the odd leaf written twice: a list of an odd number of leaves,
    three or more, and the same list with its last leaf once more are
    different lists with the same root, which [compare_merkle_roots]
    reports as identical. *)
Theorem repeated_last_leaf_same_root (leaf_hashes : list string) :
  Nat.odd (List.length leaf_hashes) = true ->
  1 < List.length leaf_hashes ->
  let repeated := leaf_hashes ++ [last leaf_hashes ""] in
  repeated <> leaf_hashes
  /\ get_merkle_root (build_merkle_tree repeated)
     = get_merkle_root (build_merkle_tree leaf_hashes)
  /\ compare_merkle_roots (get_merkle_root (build_merkle_tree leaf_hashes))
                          (get_merkle_root (build_merkle_tree repeated)) = true.
Proof.
  intros Hodd Hlen repeated.
  assert (Hne : leaf_hashes <> []) by (intros ->; discriminate).
  assert (Hne' : repeated <> []) by (unfold repeated; now destruct leaf_hashes).
  assert (Hlen' : 1 < List.length repeated)
    by (unfold repeated; rewrite length_app; cbn; lia).
  assert (Hroot : get_merkle_root (build_merkle_tree repeated)
                  = get_merkle_root (build_merkle_tree leaf_hashes)).
  { destruct (build_merkle_tree_chain leaf_hashes Hne) as [Hchain Hhd].
    destruct (build_merkle_tree_chain repeated Hne') as [Hchain' Hhd'].
    destruct (build_merkle_tree leaf_hashes) as [|level tree];
      [now apply chain_not_nil in Hchain|].
    destruct (build_merkle_tree repeated) as [|level' tree'];
      [now apply chain_not_nil in Hchain'|].
    cbn [hd] in Hhd, Hhd'. subst level level'.
    destruct (chain_inv _ _ Hchain Hlen) as (rest & -> & Hrest).
    destruct (chain_inv _ _ Hchain' Hlen') as (rest' & -> & Hrest').
    rewrite (get_merkle_root_cons repeated), (get_merkle_root_cons leaf_hashes) by easy.
    f_equal.
    apply (chain_unique _ Hrest' _ Hrest). cbn [hd].
    now apply next_level_odd_repeat. }
  split; [|split].
  - intros E. apply (f_equal (@List.length string)) in E.
    unfold repeated in E. rewrite length_app in E. cbn in E. lia.
  - exact Hroot.
  - unfold compare_merkle_roots. rewrite Hroot. apply String.eqb_refl.
Qed.

(** ** The path of a proof *)

Lemma climb_prefix tree :
  chain tree ->
  forall proof current,
    In current (hd [] tree) ->
    climb tree proof current = proof ++ climb tree [] current.
Proof.
  induction 1 as [root|level rest Hlen Hchain IH]; intros proof current Hin.
  - rewrite !climb_top. now rewrite app_nil_r.
  - cbn [hd] in Hin. rewrite !climb_step.
    destruct (scan_found level current Hin)
      as (sibling & side & parent & -> & _ & _ & Hparent & _).
    rewrite (IH (proof ++ [(sibling, side)])), (IH ([] ++ [(sibling, side)]))
      by exact Hparent.
    now rewrite <- app_assoc.
Qed.

Lemma climb_path tree :
  chain tree ->
  forall current k,
    In current (hd [] tree) ->
    k <= List.length (climb tree [] current) ->
    exists computed level,
      verify_loop (firstn k (climb tree [] current)) current = Some computed
      /\ nth_error tree k = Some level /\ In computed level.
Proof.
  induction 1 as [root|level rest Hlen Hchain IH]; intros current k Hin Hk.
  - rewrite climb_top in *. cbn in Hk. assert (k = 0) as -> by lia.
    exists current, [root]. now repeat split.
  - cbn [hd] in Hin. rewrite climb_step in *.
    destruct (scan_found level current Hin)
      as (sibling & side & parent & Hscan & _ & _ & Hparent & Hstep).
    rewrite Hscan in *.
    rewrite climb_prefix in * by assumption. cbn [app] in *.
    destruct k as [|k].
    + exists current, level. now repeat split.
    + cbn [List.length] in Hk.
      destruct (IH parent k Hparent) as (computed & lvl & Hver & Hlvl & Hc); [lia|].
      exists computed, lvl. split; [|now split].
      cbn [firstn].
      change ((sibling, side) :: firstn k (climb (next_level level :: rest) [] parent))
        with ([(sibling, side)] ++ firstn k (climb (next_level level :: rest) [] parent)).
      now rewrite (verify_loop_app _ _ _ _ Hstep).
Qed.

(** X11 -- the proof is a path of the tree: for a leaf of the list, the
    hash the verifier holds after the first [k] steps of the generated
    proof is a node of level [k] of the tree, for every [k] up to the length
    of the proof. *)
Theorem proof_walks_the_tree (leaf_hashes : list string) (target_hash : string) (k : nat) :
  In target_hash leaf_hashes ->
  k <= List.length (get_merkle_proof (build_merkle_tree leaf_hashes) target_hash) ->
  exists computed level,
    verify_loop (firstn k (get_merkle_proof (build_merkle_tree leaf_hashes) target_hash))
                target_hash = Some computed
    /\ nth_error (build_merkle_tree leaf_hashes) k = Some level
    /\ In computed level.
Proof.
  intros Hin Hk.
  assert (Hne : leaf_hashes <> []) by (intros ->; destruct Hin).
  destruct (build_merkle_tree_chain leaf_hashes Hne) as [Hchain Hhd].
  rewrite get_merkle_proof_climb in * by now rewrite Hhd.
  apply (climb_path _ Hchain); [now rewrite Hhd | exact Hk].
Qed.

End Further.

(* ================================================================== *)
(** * The digests of [hash_data] *)
(* ================================================================== *)











(* ================================================================== *)
(** * The further properties at the contracts of the demonstration *)
(* ================================================================== *)


Lemma tree_height_witness :
  hashes_v1 <> []
  /\ List.length (build_merkle_tree hashes_v1) = S (Nat.log2_up (List.length hashes_v1)).
Proof.
  assert (H : hashes_v1 <> []) by discriminate.
  split; [exact H | exact (tree_height hashes_v1 H)].
Defined.

Lemma proof_length_log_witness :
  In target_hash_v1 hashes_v1
  /\ List.length (get_merkle_proof (build_merkle_tree hashes_v1) target_hash_v1)
     = Nat.log2_up (List.length hashes_v1).
Proof.
  assert (H : In target_hash_v1 hashes_v1) by (right; left; reflexivity).
  split; [exact H | exact (proof_length_log hashes_v1 target_hash_v1 H)].
Defined.

Lemma leaves_kept_witness :
  hashes_v1 <> []
  /\ nth_error (build_merkle_tree hashes_v1) 0 = Some hashes_v1
  /\ Forall (fun level => level <> []) (build_merkle_tree hashes_v1).
Proof.
  assert (H : hashes_v1 <> []) by discriminate.
  split; [exact H | exact (leaves_kept hashes_v1 H)].
Defined.

Lemma empty_proof_iff_absent_witness :
  2 <= List.length hashes_v1
  /\ (get_merkle_proof (build_merkle_tree hashes_v1) target_hash_v1 = []
      <-> ~ In target_hash_v1 hashes_v1).
Proof.
  assert (H : 2 <= List.length hashes_v1) by (cbn; lia).
  split; [exact H | exact (empty_proof_iff_absent hashes_v1 target_hash_v1 H)].
Defined.

Lemma invalid_side_rejected_witness :
  In (target_hash_v1, "up") [(target_hash_v1, "up")]
  /\ "up" <> "left" /\ "up" <> "right"
  /\ verify_merkle_proof [(target_hash_v1, "up")] target_hash_v1 target_hash_v1 = false.
Proof.
  assert (Hin : In (target_hash_v1, "up") [(target_hash_v1, "up")]) by (left; reflexivity).
  assert (Hl : "up" <> "left") by discriminate.
  assert (Hr : "up" <> "right") by discriminate.
  split; [exact Hin|]. split; [exact Hl|]. split; [exact Hr|].
  exact (invalid_side_rejected _ _ _ target_hash_v1 target_hash_v1 Hin Hl Hr).
Defined.

Lemma proof_binds_target_witness :
  let proof_v1 := get_merkle_proof (build_merkle_tree hashes_v1) target_hash_v1 in
  let root_v1 := get_merkle_root (build_merkle_tree hashes_v1) in
  verify_merkle_proof proof_v1 target_hash_v1 root_v1 = true
  /\ (target_hash_v1 = target_hash_v1 \/ collision).
Proof.
  intros proof_v1 root_v1.
  assert (H : verify_merkle_proof proof_v1 target_hash_v1 root_v1 = true)
    by (vm_compute; reflexivity).
  split; [exact H | exact (proof_binds_target proof_v1 _ _ root_v1 H H)].
Defined.



Lemma repeated_last_leaf_same_root_witness :
  Nat.odd (List.length hashes_v1) = true /\ 1 < List.length hashes_v1
  /\ hashes_v1 ++ [last hashes_v1 ""] = hashes_v1_repeated
  /\ get_merkle_root (build_merkle_tree (hashes_v1 ++ [last hashes_v1 ""]))
     = get_merkle_root (build_merkle_tree hashes_v1).
Proof.
  assert (Hodd : Nat.odd (List.length hashes_v1) = true) by reflexivity.
  assert (Hlen : 1 < List.length hashes_v1) by (cbn; lia).
  split; [exact Hodd|]. split; [exact Hlen|]. split; [reflexivity|].
  exact (proj1 (proj2 (repeated_last_leaf_same_root hashes_v1 Hodd Hlen))).
Defined.

Lemma proof_walks_the_tree_witness :
  In target_hash_v1 hashes_v1
  /\ 2 <= List.length (get_merkle_proof (build_merkle_tree hashes_v1) target_hash_v1)
  /\ exists computed level,
       verify_loop (firstn 2 (get_merkle_proof (build_merkle_tree hashes_v1) target_hash_v1))
                   target_hash_v1 = Some computed
       /\ nth_error (build_merkle_tree hashes_v1) 2 = Some level
       /\ In computed level.
Proof.
  assert (Hin : In target_hash_v1 hashes_v1) by (right; left; reflexivity).
  assert (Hk : 2 <= List.length (get_merkle_proof (build_merkle_tree hashes_v1) target_hash_v1))
    by (vm_compute; lia).
  split; [exact Hin|]. split; [exact Hk|].
  exact (proof_walks_the_tree hashes_v1 target_hash_v1 2 Hin Hk).
Defined.


(* ================================================================== *)
(** * Properties of [extract_clauses] *)
(* ================================================================== *)

Lemma lstrip_unfold s :
  lstrip s = match space_prefix s with Some rest => lstrip rest | None => s end.
Proof.
  destruct s as [|b1 [|b2 [|b3 rest]]]; cbn [lstrip space_prefix]; try reflexivity.
  - destruct (space1 b1); reflexivity.
  - destruct (space1 b1); [reflexivity|]. destruct (space2 b1 b2); reflexivity.
  - destruct (space1 b1); [reflexivity|]. destruct (space2 b1 b2); [reflexivity|].
    destruct (space3 b1 b2 b3); reflexivity.
Qed.

Lemma space_prefix_shorter s rest :
  space_prefix s = Some rest -> String.length rest < String.length s.
Proof.
  destruct s as [|b1 [|b2 [|b3 r]]]; cbn [space_prefix]; try discriminate.
  - destruct (space1 b1); [|discriminate]. intros H. injection H as <-. cbn. lia.
  - destruct (space1 b1); [intros H; injection H as <-; cbn; lia|].
    destruct (space2 b1 b2); [|discriminate]. intros H. injection H as <-. cbn. lia.
  - destruct (space1 b1); [intros H; injection H as <-; cbn; lia|].
    destruct (space2 b1 b2); [intros H; injection H as <-; cbn; lia|].
    destruct (space3 b1 b2 b3); [|discriminate]. intros H. injection H as <-. cbn. lia.
Qed.

Lemma length_lstrip s : String.length (lstrip s) <= String.length s.
Proof.
  remember (String.length s) as n eqn:Hn.
  assert (Hle : String.length s <= n) by lia. clear Hn.
  revert s Hle. induction n as [|n IH]; intros s Hle.
  - destruct s; [cbn; lia | cbn in Hle; lia].
  - rewrite lstrip_unfold. destruct (space_prefix s) as [rest|] eqn:E; [|lia].
    apply space_prefix_shorter in E. specialize (IH rest). lia.
Qed.

Lemma lstrip_fixed s : lstrip s = s <-> space_prefix s = None.
Proof.
  split; intros H.
  - destruct (space_prefix s) as [rest|] eqn:E; [|reflexivity].
    rewrite lstrip_unfold, E in H. apply space_prefix_shorter in E.
    pose proof (length_lstrip rest) as Hlen. rewrite H in Hlen. lia.
  - now rewrite lstrip_unfold, H.
Qed.

Lemma space2_newline b1 : space2 b1 newline = false.
Proof. reflexivity. Qed.

Lemma space3_newline2 b1 b3 : space3 b1 newline b3 = false.
Proof. reflexivity. Qed.

Lemma space3_newline3 b1 b2 : space3 b1 b2 newline = false.
Proof.
  unfold space3. change (nat_of_ascii newline) with 10. cbn [Nat.eqb Nat.leb].
  cbn [andb orb]. rewrite !Bool.andb_false_r. reflexivity.
Qed.

(** A line feed ends every whitespace character that started before it. *)
Lemma space_prefix_newline u rest :
  space_prefix (u ++ String newline rest)
  = match u with
    | EmptyString => Some rest
    | _ => match space_prefix u with
           | Some u' => Some (u' ++ String newline rest)%string
           | None => None
           end
    end.
Proof.
  destruct u as [|b1 [|b2 [|b3 r]]]; cbn [append space_prefix].
  - reflexivity.
  - destruct (space1 b1); [reflexivity|]. rewrite space2_newline.
    destruct rest; [reflexivity | now rewrite space3_newline2].
  - destruct (space1 b1); [reflexivity|]. destruct (space2 b1 b2); [reflexivity|].
    now rewrite space3_newline3.
  - destruct (space1 b1); [reflexivity|]. destruct (space2 b1 b2); [reflexivity|].
    destruct (space3 b1 b2 b3); reflexivity.
Qed.

Lemma blank_newline rest : blank (String newline rest) = blank rest.
Proof. reflexivity. Qed.

Lemma not_blank_before_newline u rest :
  blank rest = false -> blank (u ++ String newline rest) = false.
Proof.
  intros Hrest. remember (String.length u) as n eqn:Hn.
  assert (Hle : String.length u <= n) by lia. clear Hn.
  revert u Hle. induction n as [|n IH]; intros u Hle.
  - destruct u; [exact Hrest | cbn in Hle; lia].
  - unfold blank. rewrite lstrip_unfold, space_prefix_newline.
    destruct u as [|b u]; [exact Hrest|].
    destruct (space_prefix (String b u)) as [u'|] eqn:E.
    + apply space_prefix_shorter in E. apply IH. lia.
    + reflexivity.
Qed.

Lemma rstrip_fixed_not_blank s : rstrip s = s -> s <> "" -> blank s = false.
Proof.
  destruct s as [|b rest]; [easy|]. intros H _. cbn [rstrip] in H.
  destruct (blank (String b rest)); [discriminate | reflexivity].
Qed.

Lemma rstrip_before_newline u rest :
  rstrip rest = rest -> rest <> "" ->
  rstrip (u ++ String newline rest) = (u ++ String newline rest)%string.
Proof.
  intros Hfix Hne. pose proof (rstrip_fixed_not_blank rest Hfix Hne) as Hrest.
  induction u as [|b u IH].
  - cbn [append rstrip]. now rewrite blank_newline, Hrest, Hfix.
  - cbn [append rstrip].
    change (String b (u ++ String newline rest))
      with (String b u ++ String newline rest)%string at 1.
    now rewrite (not_blank_before_newline (String b u) rest Hrest), IH.
Qed.

Lemma strip_empty : strip "" = "".
Proof. reflexivity. Qed.

Lemma strip_not_empty s : strip s <> "" -> s <> "" /\ blank s = false.
Proof.
  intros H. split; [intros ->; now apply H|].
  unfold blank. destruct (String.eqb_spec (lstrip s) ""); [|reflexivity].
  exfalso. apply H. unfold strip. now rewrite e.
Qed.

(** ** Lines *)

Lemma split_newline_not_nil s : split_newline s <> [].
Proof.
  destruct s as [|b rest]; [easy|]. cbn [split_newline].
  destruct (b =? newline)%char; [easy|]. now destruct (split_newline rest).
Qed.

Lemma split_newline_one_line s : Forall one_line (split_newline s).
Proof.
  induction s as [|b rest IH]; [constructor; [intros [] | constructor]|].
  cbn [split_newline]. destruct (Ascii.eqb_spec b newline) as [->|Hb].
  - constructor; [intros [] | exact IH].
  - destruct (split_newline rest) as [|line lines]; [repeat constructor; intros [E|[]]; congruence|].
    inversion IH as [|? ? Hline Hlines]; subst. constructor; [|exact Hlines].
    intros [E|Hin]; [congruence | now apply Hline].
Qed.

Lemma split_newline_line line : one_line line -> split_newline line = [line].
Proof.
  induction line as [|b line IH]; intros Hline; [reflexivity|].
  cbn [split_newline]. destruct (Ascii.eqb_spec b newline) as [->|Hb].
  - exfalso. apply Hline. now left.
  - rewrite IH; [reflexivity|]. intros Hin. apply Hline. now right.
Qed.

Lemma split_newline_app line rest :
  one_line line ->
  split_newline (line ++ String newline rest) = line :: split_newline rest.
Proof.
  induction line as [|b line IH]; intros Hline.
  - cbn [append split_newline]. now rewrite Ascii.eqb_refl.
  - cbn [append split_newline]. destruct (Ascii.eqb_spec b newline) as [->|Hb].
    + exfalso. apply Hline. now left.
    + rewrite IH; [reflexivity|]. intros Hin. apply Hline. now right.
Qed.

Lemma join_lines_cons line line' lines :
  join_lines (line :: line' :: lines)
  = (line ++ String newline (join_lines (line' :: lines)))%string.
Proof. reflexivity. Qed.

Lemma split_newline_join lines :
  lines <> [] -> Forall one_line lines -> split_newline (join_lines lines) = lines.
Proof.
  induction lines as [|line [|line' lines] IH]; intros Hne Hlines; [easy| |].
  - inversion Hlines; subst. now apply split_newline_line.
  - inversion Hlines as [|? ? Hline Hrest]; subst.
    rewrite join_lines_cons, split_newline_app by exact Hline.
    f_equal. now apply IH.
Qed.

Lemma rstrip_join lines :
  lines <> [] ->
  rstrip (last lines "") = last lines "" -> last lines "" <> "" ->
  rstrip (join_lines lines) = join_lines lines /\ join_lines lines <> "".
Proof.
  induction lines as [|line [|line' lines] IH]; intros Hne Hfix Hlast; [easy| |].
  - now split.
  - destruct IH as [IHfix IHne]; [easy | exact Hfix | exact Hlast |].
    rewrite join_lines_cons. split.
    + now apply rstrip_before_newline.
    + now destruct line.
Qed.

Lemma lstrip_join lines :
  lstrip (hd "" lines) = hd "" lines -> hd "" lines <> "" ->
  lstrip (join_lines lines) = join_lines lines.
Proof.
  destruct lines as [|line [|line' lines]]; cbn [hd]; intros Hfix Hne;
    [reflexivity | exact Hfix |].
  rewrite join_lines_cons. apply lstrip_fixed. rewrite space_prefix_newline.
  apply lstrip_fixed in Hfix. rewrite Hfix. now destruct line.
Qed.

Lemma filter_all (A : Type) (f : A -> bool) (l : list A) :
  Forall (fun x => f x = true) l -> filter f l = l.
Proof. induction 1 as [|x l Hx _ IH]; cbn; [reflexivity | now rewrite Hx, IH]. Qed.

(** X14 -- what a clause is: every clause [extract_clauses] returns has a
    character that is not whitespace and has no line feed. *)
Theorem clauses_are_lines (text clause : string) :
  In clause (extract_clauses text) ->
  strip clause <> "" /\ ~ In newline (list_ascii_of_string clause).
Proof.
  unfold extract_clauses. intros Hin. apply filter_In in Hin. destruct Hin as [Hin Hkeep].
  split.
  - intros E. rewrite E in Hkeep. discriminate.
  - pose proof (split_newline_one_line (strip text)) as Hlines.
    rewrite Forall_forall in Hlines. exact (Hlines clause Hin).
Qed.

Lemma lstrip_spaces s :
  Forall (fun b => space1 b = true) (list_ascii_of_string s) -> lstrip s = "".
Proof.
  induction s as [|b s IH]; intros H; [reflexivity|].
  inversion H as [|? ? Hb Hs]; subst. cbn [lstrip]. rewrite Hb. now apply IH.
Qed.

(** X15 -- a blank text has no clause: a text of spaces, tabs, line feeds
    and the other one-byte whitespace characters only, the empty text among
    them, yields the empty list. *)
Theorem blank_text_no_clause (text : string) :
  Forall (fun b => space1 b = true) (list_ascii_of_string text) ->
  extract_clauses text = [].
Proof.
  intros H. unfold extract_clauses, strip. now rewrite (lstrip_spaces text H).
Qed.

Lemma extract_clauses_join (lines : list string) :
  Forall (fun line => strip line <> "" /\ one_line line) lines ->
  lstrip (hd "" lines) = hd "" lines ->
  rstrip (last lines "") = last lines "" ->
  extract_clauses (join_lines lines) = lines.
Proof.
  intros Hlines Hfirst Hlast.
  destruct lines as [|line0 lines0]; [reflexivity|].
  set (lines := line0 :: lines0) in *.
  assert (Hne : lines <> []) by easy.
  assert (Hhd : hd "" lines <> "").
  { inversion Hlines as [|? ? [H0 _] _]; subst. apply (strip_not_empty _ H0). }
  assert (Hlst : last lines "" <> "").
  { rewrite Forall_forall in Hlines.
    destruct (Hlines (last lines "")) as [H0 _];
      [apply (@exists_last _ lines) in Hne; destruct Hne as (l' & a & ->);
       rewrite last_last; apply in_or_app; right; now left|].
    apply (strip_not_empty _ H0). }
  fold (join_lines lines).
  destruct (rstrip_join lines Hne Hlast Hlst) as [Hr _].
  unfold extract_clauses, strip.
  rewrite (lstrip_join lines Hfirst Hhd), Hr, split_newline_join.
  - apply filter_all. apply Forall_forall. intros line Hin.
    rewrite Forall_forall in Hlines. destruct (Hlines line Hin) as [H0 _].
    fold (strip line). now destruct (String.eqb_spec (strip line) "").
  - exact Hne.
  - apply Forall_forall. intros line Hin.
    rewrite Forall_forall in Hlines. now destruct (Hlines line Hin).
Qed.

(** X16 -- joining and extracting: lines that each have a character that is
    not whitespace and no line feed, the first without leading and the last
    without trailing whitespace, are the clauses of the text that joins
    them with line feeds. *)
Theorem extract_joined_lines (lines : list string) :
  Forall (fun line => strip line <> "" /\ ~ In newline (list_ascii_of_string line)) lines ->
  lstrip (hd "" lines) = hd "" lines ->
  rstrip (last lines "") = last lines "" ->
  extract_clauses (String.concat (String newline "") lines) = lines.
Proof. exact (extract_clauses_join lines). Qed.

(** ** Extracting twice *)

Lemma space_prefix_app u u' w :
  space_prefix u = Some u' -> space_prefix (u ++ w) = Some (u' ++ w)%string.
Proof.
  destruct u as [|b1 [|b2 [|b3 r]]]; cbn [append space_prefix]; try discriminate.
  - destruct (space1 b1); [|discriminate]. now intros H; injection H as <-.
  - destruct (space1 b1); [now intros H; injection H as <-|].
    destruct (space2 b1 b2); [|discriminate]. now intros H; injection H as <-.
  - destruct (space1 b1); [now intros H; injection H as <-|].
    destruct (space2 b1 b2); [now intros H; injection H as <-|].
    destruct (space3 b1 b2 b3); [|discriminate]. now intros H; injection H as <-.
Qed.

Lemma blank_app u w : blank u = true -> blank w = true -> blank (u ++ w) = true.
Proof.
  intros Hu Hw. remember (String.length u) as n eqn:Hn.
  assert (Hle : String.length u <= n) by lia. clear Hn.
  revert u Hu Hle. induction n as [|n IH]; intros u Hu Hle.
  - destruct u; [exact Hw | cbn in Hle; lia].
  - destruct u as [|b u]; [exact Hw|].
    unfold blank in Hu |- *. rewrite lstrip_unfold in Hu.
    destruct (space_prefix (String b u)) as [u'|] eqn:E; [|discriminate].
    rewrite lstrip_unfold, (space_prefix_app _ _ w E).
    apply space_prefix_shorter in E. apply IH; [exact Hu | lia].
Qed.

Lemma lstrip_idempotent s : lstrip (lstrip s) = lstrip s.
Proof.
  remember (String.length s) as n eqn:Hn.
  assert (Hle : String.length s <= n) by lia. clear Hn.
  revert s Hle. induction n as [|n IH]; intros s Hle.
  - destruct s; [reflexivity | cbn in Hle; lia].
  - rewrite (lstrip_unfold s). destruct (space_prefix s) as [rest|] eqn:E.
    + apply space_prefix_shorter in E. apply IH. lia.
    + now apply lstrip_fixed.
Qed.

Lemma rstrip_not_blank s : blank s = false -> rstrip s <> "".
Proof. destruct s as [|b s]; [discriminate|]. intros H. cbn [rstrip]. now rewrite H. Qed.

Lemma not_blank_strip s : blank s = false -> strip s <> "".
Proof.
  intros H. apply rstrip_not_blank. unfold blank in *. now rewrite lstrip_idempotent.
Qed.

(** What [rstrip] cuts off is blank. *)
Lemma rstrip_cut s : exists w, s = (rstrip s ++ w)%string /\ blank w = true.
Proof.
  induction s as [|b s (w & Hs & Hw)]; [now exists ""|].
  cbn [rstrip]. destruct (blank (String b s)) eqn:E.
  - now exists (String b s).
  - exists w. split; [cbn; now rewrite <- Hs | exact Hw].
Qed.

Lemma rstrip_idempotent s : rstrip (rstrip s) = rstrip s.
Proof.
  induction s as [|b s IH]; [reflexivity|].
  cbn [rstrip]. destruct (blank (String b s)) eqn:E; [reflexivity|].
  cbn [rstrip]. rewrite IH.
  destruct (blank (String b (rstrip s))) eqn:E'; [|reflexivity].
  destruct (rstrip_cut s) as (w & Hs & Hw).
  pose proof (blank_app _ _ E' Hw) as Hb. cbn [append] in Hb.
  rewrite <- Hs in Hb. congruence.
Qed.

Lemma rstrip_suffix u v : rstrip (u ++ v) = (u ++ v)%string -> rstrip v = v.
Proof.
  induction u as [|b u IH]; [easy|]. cbn [append rstrip].
  destruct (blank _); [discriminate|]. intros H. injection H as H. now apply IH.
Qed.

Lemma strip_stripped text :
  lstrip (strip text) = strip text /\ rstrip (strip text) = strip text.
Proof.
  unfold strip. split; [|apply rstrip_idempotent].
  apply lstrip_fixed.
  destruct (space_prefix (rstrip (lstrip text))) as [rest|] eqn:E; [|reflexivity].
  destruct (rstrip_cut (lstrip text)) as (w & Hs & _).
  apply (space_prefix_app _ _ w) in E. rewrite <- Hs in E.
  pose proof (proj1 (lstrip_fixed (lstrip text)) (lstrip_idempotent text)). congruence.
Qed.

Lemma join_split s : join_lines (split_newline s) = s.
Proof.
  induction s as [|b s IH]; [reflexivity|].
  cbn [split_newline]. destruct (Ascii.eqb_spec b newline) as [->|Hb].
  - pose proof (split_newline_not_nil s) as Hne.
    destruct (split_newline s) as [|line lines]; [easy|].
    rewrite join_lines_cons, IH. reflexivity.
  - pose proof (split_newline_not_nil s) as Hne.
    destruct (split_newline s) as [|line [|line' lines]]; [easy| |].
    + cbn in IH |- *. now rewrite IH.
    + rewrite join_lines_cons in *. cbn [append]. now rewrite IH.
Qed.

Lemma append_assoc (s1 s2 s3 : string) :
  ((s1 ++ s2) ++ s3 = s1 ++ (s2 ++ s3))%string.
Proof. induction s1 as [|b s1 IH]; cbn; [reflexivity | now rewrite IH]. Qed.

Lemma append_comm_cons (b : ascii) (s1 s2 : string) :
  (String b (s1 ++ s2) = String b s1 ++ s2)%string.
Proof. reflexivity. Qed.

Lemma join_lines_snoc lines line :
  lines <> [] ->
  join_lines (lines ++ [line]) = (join_lines lines ++ String newline line)%string.
Proof.
  induction lines as [|line0 [|line1 lines] IH]; intros Hne; [easy|reflexivity|].
  change ((line0 :: line1 :: lines) ++ [line]) with (line0 :: line1 :: (lines ++ [line])).
  rewrite !join_lines_cons.
  change (line1 :: lines ++ [line]) with ((line1 :: lines) ++ [line]).
  rewrite IH by easy. now rewrite append_assoc, <- append_comm_cons.
Qed.

Lemma first_line_stripped s :
  lstrip s = s -> s <> "" ->
  lstrip (hd "" (split_newline s)) = hd "" (split_newline s)
  /\ hd "" (split_newline s) <> "".
Proof.
  intros Hfix Hne. pose proof (join_split s) as Hjoin.
  pose proof (split_newline_not_nil s) as Hlines.
  destruct (split_newline s) as [|line [|line' lines]]; [easy| |]; cbn [hd].
  - cbn in Hjoin. now subst.
  - rewrite join_lines_cons in Hjoin. apply lstrip_fixed in Hfix.
    rewrite <- Hjoin, space_prefix_newline in Hfix.
    destruct line as [|b line]; [discriminate|]. split; [|easy].
    apply lstrip_fixed. now destruct (space_prefix (String b line)).
Qed.

Lemma last_line_stripped s :
  rstrip s = s -> s <> "" ->
  rstrip (last (split_newline s) "") = last (split_newline s) ""
  /\ last (split_newline s) "" <> "".
Proof.
  intros Hfix Hne. pose proof (join_split s) as Hjoin.
  pose proof (split_newline_not_nil s) as Hlines.
  destruct (exists_last Hlines) as (lines & line & E). rewrite E in *. clear E.
  rewrite last_last. destruct lines as [|line0 lines].
  - cbn in Hjoin. now subst.
  - rewrite join_lines_snoc in Hjoin by easy. rewrite <- Hjoin in Hfix.
    apply rstrip_suffix in Hfix. cbn [rstrip] in Hfix. rewrite blank_newline in Hfix.
    destruct (blank line) eqn:Hb; [discriminate|]. injection Hfix as Hfix.
    split; [exact Hfix | now intros ->].
Qed.

Lemma last_filter (A : Type) (f : A -> bool) (l : list A) (d : A) :
  l <> [] -> f (last l d) = true -> last (filter f l) d = last l d.
Proof.
  intros Hne. destruct (exists_last Hne) as (l' & a & ->).
  rewrite last_last, filter_app. cbn [filter]. intros ->. apply last_last.
Qed.

Lemma extract_clauses_stripped text :
  lstrip (hd "" (extract_clauses text)) = hd "" (extract_clauses text)
  /\ rstrip (last (extract_clauses text) "") = last (extract_clauses text) "".
Proof.
  unfold extract_clauses.
  destruct (strip_stripped text) as [Hl Hr].
  set (s := strip text) in *. set (keep := fun line => negb (strip line =? "")%string).
  destruct (String.string_dec s "") as [->|Hne]; [now split|].
  destruct (first_line_stripped s Hl Hne) as [Hfirst Hfirst'].
  destruct (last_line_stripped s Hr Hne) as [Hlast Hlast'].
  pose proof (split_newline_not_nil s) as Hlines.
  split.
  - destruct (split_newline s) as [|line lines]; [easy|]. cbn [hd filter] in *.
    assert (Hkeep : keep line = true).
    { unfold keep. apply negb_true_iff, String.eqb_neq, not_blank_strip.
      unfold blank. rewrite Hfirst. now apply String.eqb_neq. }
    now rewrite Hkeep.
  - rewrite last_filter; [exact Hlast | exact Hlines |].
    unfold keep. apply negb_true_iff, String.eqb_neq, not_blank_strip.
    now apply rstrip_fixed_not_blank.
Qed.

(** X17 -- extracting twice: the clauses of a text, joined with line
    feeds, have the same clauses; nothing is lost or split by writing the
    clauses out and reading them again. *)
Theorem extract_clauses_idempotent (text : string) :
  extract_clauses (String.concat (String newline "") (extract_clauses text))
  = extract_clauses text.
Proof.
  destruct (extract_clauses_stripped text) as [Hfirst Hlast].
  apply extract_clauses_join; [|exact Hfirst | exact Hlast].
  apply Forall_forall. intros line Hin. unfold extract_clauses in Hin.
  apply filter_In in Hin. destruct Hin as [Hin Hkeep]. split.
  - intros E. rewrite E in Hkeep. discriminate.
  - pose proof (split_newline_one_line (strip text)) as Hlines.
    rewrite Forall_forall in Hlines. exact (Hlines line Hin).
Qed.

(** The clauses of contract 1 as the program extracts them (line 192). *)
Example clauses_of_contract_v1 : extract_clauses contract_v1 = clauses_v1.
Proof. vm_compute. reflexivity. Qed.

(* ================================================================== *)
(** * Properties of [compare_and_print_clause_hashes] *)
(* ================================================================== *)

Lemma fst_bind (A B : Type) (m : Print A) (k : A -> Print B) :
  fst (bind m k)
  = fst m ++ match snd m with Some a => fst (k a) | None => [] end.
Proof.
  destruct m as [out [a|]]; cbn; [|now rewrite app_nil_r].
  now destruct (k a).
Qed.

Lemma snd_bind (A B : Type) (m : Print A) (k : A -> Print B) :
  snd (bind m k) = match snd m with Some a => snd (k a) | None => None end.
Proof. destruct m as [out [a|]]; cbn; [|reflexivity]. now destruct (k a). Qed.

Lemma for_each_returns indices body :
  (forall i, In i indices -> snd (body i) = Some tt) ->
  for_each indices body = (flat_map (fun i => fst (body i)) indices, Some tt).
Proof.
  induction indices as [|i indices IH]; intros H; [reflexivity|].
  cbn [for_each flat_map]. rewrite IH by (intros j Hj; apply H; now right).
  specialize (H i (or_introl eq_refl)).
  destruct (body i) as [out r]. cbn in H. subst r. reflexivity.
Qed.

Lemma for_each_raises indices body i :
  In i indices -> snd (body i) = None -> snd (for_each indices body) = None.
Proof.
  induction indices as [|j indices IH]; intros Hin Hraise; [destruct Hin|].
  cbn [for_each]. rewrite snd_bind.
  destruct Hin as [->|Hin]; [now rewrite Hraise|].
  destruct (snd (body j)); [now apply IH | reflexivity].
Qed.

Lemma index_in_range l i :
  i < List.length l -> exists x, nth_error l i = Some x /\ index l i = ([], Some x).
Proof.
  intros Hi. destruct (nth_error l i) as [x|] eqn:E.
  - exists x. unfold index. now rewrite E.
  - apply nth_error_None in E. lia.
Qed.

Lemma compare_clause_returns hashes_v1 hashes_v2 clauses_v1 clauses_v2 i :
  i < List.length hashes_v1 -> i < List.length hashes_v2 ->
  i < List.length clauses_v1 -> i < List.length clauses_v2 ->
  snd (compare_clause hashes_v1 hashes_v2 clauses_v1 clauses_v2 i) = Some tt.
Proof.
  intros H1 H2 C1 C2. unfold compare_clause.
  destruct (index_in_range _ _ H1) as (h1 & _ & Eh1).
  destruct (index_in_range _ _ H2) as (h2 & _ & Eh2).
  destruct (index_in_range _ _ C1) as (c1 & _ & E1).
  destruct (index_in_range _ _ C2) as (c2 & _ & E2).
  rewrite snd_bind, Eh1. cbn [snd]. rewrite snd_bind, Eh2. cbn [snd].
  destruct (h1 =? h2)%string; [reflexivity|].
  rewrite snd_bind. cbn [print snd]. rewrite snd_bind, E1. cbn [snd].
  rewrite snd_bind. cbn [print snd]. rewrite snd_bind, E2. reflexivity.
Qed.

Lemma additional_clause_returns clauses i :
  i < List.length clauses -> snd (additional_clause clauses i) = Some tt.
Proof.
  intros Hi. unfold additional_clause.
  destruct (index_in_range _ _ Hi) as (c & _ & E). now rewrite snd_bind, E.
Qed.

(** The report when no clause is missing: what the three parts print. *)
Lemma report_returns hashes_v1 hashes_v2 clauses_v1 clauses_v2 :
  List.length hashes_v1 <= List.length clauses_v1 ->
  List.length hashes_v2 <= List.length clauses_v2 ->
  let min_len := Nat.min (List.length hashes_v1) (List.length hashes_v2) in
  let max_len := Nat.max (List.length hashes_v1) (List.length hashes_v2) in
  compare_and_print_clause_hashes hashes_v1 hashes_v2 clauses_v1 clauses_v2
  = ([String newline "🔎 Clause-Level Comparison:"]
     ++ flat_map (fun i => fst (compare_clause hashes_v1 hashes_v2 clauses_v1 clauses_v2 i))
                 (seq 0 min_len)
     ++ (if (min_len <? max_len)%nat then
           String newline "Additional Clauses:"
           :: (if (List.length hashes_v2 <? List.length hashes_v1)%nat then
                 "   🔹 V1 has additional clauses:"
                 :: flat_map (fun i => fst (additional_clause clauses_v1 i))
                             (seq min_len (max_len - min_len))
               else
                 "   🔹 V2 has additional clauses:"
                 :: flat_map (fun i => fst (additional_clause clauses_v2 i))
                             (seq min_len (max_len - min_len)))
         else []),
     Some tt).
Proof.
  intros C1 C2 min_len max_len. unfold compare_and_print_clause_hashes.
  fold min_len max_len.
  change (fun i : nat => _ <- index hashes_v1 i ;; _)
    with (compare_clause hashes_v1 hashes_v2 clauses_v1 clauses_v2).
  change (fun i : nat => c1 <- index clauses_v1 i ;; _) with (additional_clause clauses_v1).
  change (fun i : nat => c2 <- index clauses_v2 i ;; _) with (additional_clause clauses_v2).
  rewrite (for_each_returns (seq 0 min_len)).
  2:{ intros i Hi. apply in_seq in Hi. apply compare_clause_returns; lia. }
  cbn [print bind app]. destruct (min_len <? max_len)%nat eqn:Hlt.
  - destruct (Nat.ltb_spec (List.length hashes_v2) (List.length hashes_v1)) as [Hl|Hl].
    + rewrite (for_each_returns (seq min_len (max_len - min_len))).
      2:{ intros i Hi. apply in_seq in Hi. apply additional_clause_returns. lia. }
      reflexivity.
    + rewrite (for_each_returns (seq min_len (max_len - min_len))).
      2:{ intros i Hi. apply in_seq in Hi. apply additional_clause_returns. lia. }
      reflexivity.
  - cbn. reflexivity.
Qed.

(** X18 -- no missing clause, no error: when each list of clauses is at
    least as long as its list of hashes, the report ends without
    [IndexError]. *)
Theorem report_no_index_error (hashes_v1 hashes_v2 clauses_v1 clauses_v2 : list string) :
  List.length hashes_v1 <= List.length clauses_v1 ->
  List.length hashes_v2 <= List.length clauses_v2 ->
  snd (compare_and_print_clause_hashes hashes_v1 hashes_v2 clauses_v1 clauses_v2)
  = Some tt.
Proof.
  intros C1 C2.
  now rewrite (report_returns hashes_v1 hashes_v2 clauses_v1 clauses_v2 C1 C2).
Qed.

Lemma flat_map_singletons (A B : Type) (f : A -> list B) (g : A -> B) (l : list A) :
  (forall x, In x l -> f x = [g x]) -> flat_map f l = map g l.
Proof.
  induction l as [|x l IH]; intros H; [reflexivity|].
  cbn [flat_map map]. rewrite (H x (or_introl eq_refl)), IH; [reflexivity|].
  intros y Hy. apply H. now right.
Qed.

Lemma compare_clause_match hashes clauses_v1 clauses_v2 i :
  i < List.length hashes ->
  compare_clause hashes hashes clauses_v1 clauses_v2 i
  = (["Clause " ++ str (i + 1) ++ ": ✅ Match"]%string, Some tt).
Proof.
  intros Hi. unfold compare_clause.
  destruct (index_in_range _ _ Hi) as (h & _ & ->).
  cbn [bind app]. now rewrite String.eqb_refl.
Qed.

(** X19 -- identical hashes: for one list of hashes on both sides the
    report is the heading and one "Match" line per hash, in order, and it
    never reads a clause (the lists of clauses may be anything). *)
Theorem report_identical (hashes clauses_v1 clauses_v2 : list string) :
  compare_and_print_clause_hashes hashes hashes clauses_v1 clauses_v2
  = (String newline "🔎 Clause-Level Comparison:"
     :: map (fun i => "Clause " ++ str (i + 1) ++ ": ✅ Match")%string
            (seq 0 (List.length hashes)),
     Some tt).
Proof.
  unfold compare_and_print_clause_hashes.
  rewrite Nat.min_id, Nat.max_id, Nat.ltb_irrefl.
  change (fun i : nat => _ <- index hashes i ;; _)
    with (compare_clause hashes hashes clauses_v1 clauses_v2).
  rewrite for_each_returns.
  2:{ intros i Hi. apply in_seq in Hi. rewrite compare_clause_match by lia. reflexivity. }
  rewrite (flat_map_singletons _ _ _
             (fun i => "Clause " ++ str (i + 1) ++ ": ✅ Match")%string).
  2:{ intros i Hi. apply in_seq in Hi. rewrite compare_clause_match by lia. reflexivity. }
  cbn. now rewrite app_nil_r.
Qed.

Lemma nth_error_Some_length (A : Type) (l : list A) i x :
  nth_error l i = Some x -> i < List.length l.
Proof. intros H. apply nth_error_Some. congruence. Qed.

(** X20 -- a missing clause: when the hashes at a common position differ
    and one of the lists of clauses has no clause at that position, the
    report raises [IndexError]. *)
Theorem report_index_error (hashes_v1 hashes_v2 clauses_v1 clauses_v2 : list string)
    (i : nat) :
  i < List.length hashes_v1 -> i < List.length hashes_v2 ->
  nth_error hashes_v1 i <> nth_error hashes_v2 i ->
  List.length clauses_v1 <= i \/ List.length clauses_v2 <= i ->
  snd (compare_and_print_clause_hashes hashes_v1 hashes_v2 clauses_v1 clauses_v2)
  = None.
Proof.
  intros H1 H2 Hdiff Hmissing. unfold compare_and_print_clause_hashes.
  change (fun i : nat => _ <- index hashes_v1 i ;; _)
    with (compare_clause hashes_v1 hashes_v2 clauses_v1 clauses_v2).
  rewrite snd_bind. cbn [print snd]. rewrite snd_bind.
  rewrite (for_each_raises _ _ i); [reflexivity | apply in_seq; lia |].
  unfold compare_clause.
  destruct (index_in_range _ _ H1) as (h1 & E1 & Eh1).
  destruct (index_in_range _ _ H2) as (h2 & E2 & Eh2).
  rewrite snd_bind, Eh1. cbn [snd]. rewrite snd_bind, Eh2. cbn [snd].
  destruct (String.eqb_spec h1 h2) as [->|_]; [congruence|].
  rewrite snd_bind. cbn [print snd]. rewrite snd_bind. unfold index at 1. cbn [snd].
  destruct (nth_error clauses_v1 i) as [c1|] eqn:Ec1; [|reflexivity].
  rewrite snd_bind. cbn [print snd]. rewrite snd_bind. unfold index. cbn [snd].
  destruct (nth_error clauses_v2 i) as [c2|] eqn:Ec2; [|reflexivity].
  apply nth_error_Some_length in Ec1, Ec2. lia.
Qed.

Lemma in_middle (A : Type) (pre mid post : list A) (x : A) :
  In x mid -> In x (pre ++ mid ++ post).
Proof. intros H. apply in_or_app. right. apply in_or_app. now left. Qed.

Lemma compare_clause_prints hashes_v1 hashes_v2 clauses_v1 clauses_v2 i h1 h2 c1 c2 :
  nth_error hashes_v1 i = Some h1 -> nth_error hashes_v2 i = Some h2 ->
  nth_error clauses_v1 i = Some c1 -> nth_error clauses_v2 i = Some c2 ->
  fst (compare_clause hashes_v1 hashes_v2 clauses_v1 clauses_v2 i)
  = if (h1 =? h2)%string
    then ["Clause " ++ str (i + 1) ++ ": ✅ Match"]%string
    else ["Clause " ++ str (i + 1) ++ ": ❌ Difference";
          "   🔹 V1: " ++ c1; "   🔹 V2: " ++ c2]%string.
Proof.
  intros E1 E2 Ec1 Ec2. unfold compare_clause, index. rewrite E1, E2. cbn [bind app].
  destruct (h1 =? h2)%string; [reflexivity|]. rewrite Ec1, Ec2. reflexivity.
Qed.

(** X21 -- what is reported at a common position: when no clause is
    missing, the report has the line "Clause i+1: Match" for a position
    [i] where the two hashes are equal, and for a position where they
    differ the line "Clause i+1: Difference" and the two clauses of that
    position, each after its version mark. *)
Theorem report_common_position
    (hashes_v1 hashes_v2 clauses_v1 clauses_v2 : list string)
    (i : nat) (h1 h2 c1 c2 : string) :
  List.length hashes_v1 <= List.length clauses_v1 ->
  List.length hashes_v2 <= List.length clauses_v2 ->
  nth_error hashes_v1 i = Some h1 -> nth_error hashes_v2 i = Some h2 ->
  nth_error clauses_v1 i = Some c1 -> nth_error clauses_v2 i = Some c2 ->
  let out := fst (compare_and_print_clause_hashes hashes_v1 hashes_v2 clauses_v1 clauses_v2) in
  (h1 = h2 -> In ("Clause " ++ str (i + 1) ++ ": ✅ Match")%string out)
  /\ (h1 <> h2 ->
      In ("Clause " ++ str (i + 1) ++ ": ❌ Difference")%string out
      /\ In ("   🔹 V1: " ++ c1)%string out
      /\ In ("   🔹 V2: " ++ c2)%string out).
Proof.
  intros C1 C2 E1 E2 Ec1 Ec2 out. subst out.
  rewrite (report_returns hashes_v1 hashes_v2 clauses_v1 clauses_v2 C1 C2). cbn [fst].
  assert (Hi : In i (seq 0 (Nat.min (List.length hashes_v1) (List.length hashes_v2)))).
  { apply nth_error_Some_length in E1, E2. apply in_seq. lia. }
  assert (Hline : forall line,
            In line (fst (compare_clause hashes_v1 hashes_v2 clauses_v1 clauses_v2 i)) ->
            In line (flat_map (fun i => fst (compare_clause hashes_v1 hashes_v2
                                               clauses_v1 clauses_v2 i))
                       (seq 0 (Nat.min (List.length hashes_v1) (List.length hashes_v2))))).
  { intros line Hin. apply in_flat_map. now exists i. }
  rewrite (compare_clause_prints _ _ _ _ _ _ _ _ _ E1 E2 Ec1 Ec2) in Hline.
  split.
  - intros ->. rewrite String.eqb_refl in Hline. apply in_middle, Hline. now left.
  - intros Hne. apply String.eqb_neq in Hne. rewrite Hne in Hline.
    repeat split; apply in_middle, Hline; cbn; auto.
Qed.

Lemma additional_clause_prints clauses i c :
  nth_error clauses i = Some c ->
  fst (additional_clause clauses i)
  = ["      Clause " ++ str (i + 1) ++ ": " ++ c]%string.
Proof. intros E. unfold additional_clause, index. now rewrite E. Qed.

(** X22 -- the additional clauses: when no clause is missing and one list
    of hashes is longer, the report names the longer version and has, for
    every position past the shorter list, the line with the number and the
    clause of that position in the longer version. *)
Theorem report_additional_clauses
    (hashes_v1 hashes_v2 clauses_v1 clauses_v2 : list string) (i : nat) (c : string) :
  List.length hashes_v1 <= List.length clauses_v1 ->
  List.length hashes_v2 <= List.length clauses_v2 ->
  let out := fst (compare_and_print_clause_hashes hashes_v1 hashes_v2 clauses_v1 clauses_v2) in
  (List.length hashes_v2 <= i < List.length hashes_v1 ->
   nth_error clauses_v1 i = Some c ->
   In "   🔹 V1 has additional clauses:" out
   /\ In ("      Clause " ++ str (i + 1) ++ ": " ++ c)%string out)
  /\ (List.length hashes_v1 <= i < List.length hashes_v2 ->
      nth_error clauses_v2 i = Some c ->
      In "   🔹 V2 has additional clauses:" out
      /\ In ("      Clause " ++ str (i + 1) ++ ": " ++ c)%string out).
Proof.
  intros C1 C2 out. subst out.
  rewrite (report_returns hashes_v1 hashes_v2 clauses_v1 clauses_v2 C1 C2). cbn [fst].
  set (min_len := Nat.min _ _). set (max_len := Nat.max _ _).
  split; intros Hi Ec.
  - assert (Hlt : (min_len <? max_len)%nat = true) by (apply Nat.ltb_lt; lia).
    assert (Hl : (List.length hashes_v2 <? List.length hashes_v1)%nat = true)
      by (apply Nat.ltb_lt; lia).
    rewrite Hlt, Hl. split.
    + apply in_or_app. right. apply in_or_app. right. right. now left.
    + apply in_or_app. right. apply in_or_app. right. right. right.
      apply in_flat_map. exists i. split; [apply in_seq; lia|].
      rewrite (additional_clause_prints _ _ _ Ec). now left.
  - assert (Hlt : (min_len <? max_len)%nat = true) by (apply Nat.ltb_lt; lia).
    assert (Hl : (List.length hashes_v2 <? List.length hashes_v1)%nat = false)
      by (apply Nat.ltb_ge; lia).
    rewrite Hlt, Hl. split.
    + apply in_or_app. right. apply in_or_app. right. right. now left.
    + apply in_or_app. right. apply in_or_app. right. right. right.
      apply in_flat_map. exists i. split; [apply in_seq; lia|].
      rewrite (additional_clause_prints _ _ _ Ec). now left.
Qed.

(* ================================================================== *)
(** * The text and the report at the contracts of the demonstration *)
(* ================================================================== *)

Lemma clauses_are_lines_witness :
  In "Clause 2: The seller provides a 1-year warranty." (extract_clauses contract_v1)
  /\ strip "Clause 2: The seller provides a 1-year warranty." <> "".
Proof.
  assert (H : In "Clause 2: The seller provides a 1-year warranty."
                 (extract_clauses contract_v1))
    by (vm_compute; right; left; reflexivity).
  split; [exact H | exact (proj1 (clauses_are_lines contract_v1 _ H))].
Defined.

Lemma blank_text_no_clause_witness :
  Forall (fun b => space1 b = true) (list_ascii_of_string (String newline "  "))
  /\ extract_clauses (String newline "  ") = [].
Proof.
  assert (H : Forall (fun b => space1 b = true)
                     (list_ascii_of_string (String newline "  ")))
    by (repeat constructor).
  split; [exact H | exact (blank_text_no_clause _ H)].
Defined.

Lemma extract_joined_lines_witness :
  Forall (fun line => strip line <> "" /\ ~ In newline (list_ascii_of_string line))
         ["1. Pay"; "2. Ship"]
  /\ extract_clauses (String.concat (String newline "") ["1. Pay"; "2. Ship"])
     = ["1. Pay"; "2. Ship"].
Proof.
  assert (H : Forall (fun line => strip line <> ""
                                  /\ ~ In newline (list_ascii_of_string line))
                     ["1. Pay"; "2. Ship"]).
  { repeat constructor; try discriminate;
      cbn; intros H; repeat (destruct H as [H|H]; [discriminate H|]); exact H. }
  split; [exact H | exact (extract_joined_lines _ H eq_refl eq_refl)].
Defined.

Lemma report_no_index_error_witness :
  List.length hashes_v1 <= List.length clauses_v1
  /\ List.length hashes_v2 <= List.length clauses_v2
  /\ snd (compare_and_print_clause_hashes hashes_v1 hashes_v2 clauses_v1 clauses_v2)
     = Some tt.
Proof.
  assert (C1 : List.length hashes_v1 <= List.length clauses_v1) by (cbn; lia).
  assert (C2 : List.length hashes_v2 <= List.length clauses_v2) by (cbn; lia).
  split; [exact C1|]. split; [exact C2|].
  exact (report_no_index_error hashes_v1 hashes_v2 clauses_v1 clauses_v2 C1 C2).
Defined.

Lemma report_index_error_witness :
  nth_error hashes_v1 1 <> nth_error hashes_v2 1
  /\ snd (compare_and_print_clause_hashes hashes_v1 hashes_v2 [] []) = None.
Proof.
  assert (H1 : 1 < List.length hashes_v1) by (cbn; lia).
  assert (H2 : 1 < List.length hashes_v2) by (cbn; lia).
  assert (Hdiff : nth_error hashes_v1 1 <> nth_error hashes_v2 1) by discriminate.
  assert (Hmissing : @List.length string [] <= 1 \/ @List.length string [] <= 1)
    by (left; cbn; lia).
  split; [exact Hdiff|].
  exact (report_index_error hashes_v1 hashes_v2 [] [] 1 H1 H2 Hdiff Hmissing).
Defined.

Lemma report_common_position_witness :
  nth_error hashes_v1 1 <> nth_error hashes_v2 1
  /\ In "   🔹 V2: Clause 2: The seller provides a 2-year warranty."
        (fst (compare_and_print_clause_hashes hashes_v1 hashes_v2 clauses_v1 clauses_v2)).
Proof.
  assert (C1 : List.length hashes_v1 <= List.length clauses_v1) by (cbn; lia).
  assert (C2 : List.length hashes_v2 <= List.length clauses_v2) by (cbn; lia).
  assert (Hdiff : nth_error hashes_v1 1 <> nth_error hashes_v2 1) by discriminate.
  split; [exact Hdiff|].
  refine (proj2 (proj2 (proj2 (report_common_position hashes_v1 hashes_v2
                                 clauses_v1 clauses_v2 1 _ _ _ _
                                 C1 C2 eq_refl eq_refl eq_refl eq_refl) _))).
  intros E. apply Hdiff. cbn. now rewrite E.
Defined.

Lemma report_additional_clauses_witness :
  let clauses := clauses_v1 ++ ["Clause 3: All disputes will be settled in California."] in
  List.length hashes_v1_repeated <= List.length clauses
  /\ In "      Clause 4: Clause 3: All disputes will be settled in California."
        (fst (compare_and_print_clause_hashes hashes_v1_repeated hashes_v2
                clauses clauses_v2)).
Proof.
  intros clauses.
  assert (C1 : List.length hashes_v1_repeated <= List.length clauses) by (cbn; lia).
  assert (C2 : List.length hashes_v2 <= List.length clauses_v2) by (cbn; lia).
  assert (Hi : List.length hashes_v2 <= 3 < List.length hashes_v1_repeated) by (cbn; lia).
  split; [exact C1|].
  exact (proj2 (proj1 (report_additional_clauses hashes_v1_repeated hashes_v2
                         clauses clauses_v2 3 _ C1 C2) Hi eq_refl)).
Defined.
